(** * PyPose second-order optimizers: Gauss-Newton and Levenberg-Marquardt

    A shallow embedding of [pypose/optim/optimizer.py] and the properties of
    its [step] operation.

    Tensor entries are elements of a commutative ring with a decidable order
    (exact arithmetic: rounding of floating-point numbers is not modelled).
    [torch] objects appear with the shapes the code gives them: model
    parameters, outputs and targets are n-dimensional tensors (a shape and
    row-major data); the residual, the kernel weights, the Jacobian, the normal
    matrix and the update are two-dimensional matrices.  Parameters live in a
    store and parameter groups hold references into it, since the optimizer
    updates in place the very tensors the model reads.  A Python exception is
    an error result, and the store reached when it is raised is kept.

    The model, automatic differentiation and the linear solvers are
    collaborators of the optimizers: they are arguments of the embedding, and
    instances over the integers are given to run [step] on concrete models. *)

From Stdlib Require Import String.
From Stdlib Require Import List ZArith Lia Bool Ring PeanoNat.
Import ListNotations.
Local Open Scope string_scope.
Local Open Scope list_scope.

Set Implicit Arguments.

(** ** Scalars *)

Class Scalar : Type := {
  num : Type;
  rO : num;
  rI : num;
  radd : num -> num -> num;
  rmul : num -> num -> num;
  rsub : num -> num -> num;
  ropp : num -> num;
  rleb : num -> num -> bool;
  rltb : num -> num -> bool;
  num_ring : ring_theory rO rI radd rmul rsub ropp (@eq num)
}.

Declare Scope num_scope.
Delimit Scope num_scope with num.
Notation "x + y" := (radd x y) : num_scope.
Notation "x * y" := (rmul x y) : num_scope.
Notation "x - y" := (rsub x y) : num_scope.
Notation "- x" := (ropp x) : num_scope.

#[global] Program Instance Z_scalar : Scalar := {|
  num := Z; rO := 0%Z; rI := 1%Z;
  radd := Z.add; rmul := Z.mul; rsub := Z.sub; ropp := Z.opp;
  rleb := Z.leb; rltb := Z.ltb
|}.
Next Obligation. exact Zth. Qed.

(** ** Exceptions and results *)

Inductive exn : Type :=
| RuntimeError (msg : string)
| TypeError (msg : string)
| ValueError (msg : string)
| LinAlgError (msg : string)
| AssertionError (arg : exn).

(** [isinstance(e, ValueError)] *)
Definition is_ValueError (e : exn) : bool :=
  match e with
  | ValueError _ => true
  | _ => false
  end.

Definition result (A : Type) : Type := (exn + A)%type.

Definition OK {A} (a : A) : result A := inr a.
Definition Error {A} (e : exn) : result A := inl e.

Definition rbind {A B} (c : result A) (k : A -> result B) : result B :=
  match c with
  | inl e => inl e
  | inr a => k a
  end.

Notation "'let?' x ':=' c 'in' k" := (rbind c (fun x => k))
  (at level 10, x pattern, c at level 100, k at level 200).

Fixpoint mapM {A B} (f : A -> result B) (l : list A) : result (list B) :=
  match l with
  | [] => OK []
  | a :: l' =>
      let? b := f a in
      let? bs := mapM f l' in
      OK (b :: bs)
  end.

Section Optimizer.

Context {SC : Scalar}.

Local Open Scope num_scope.

(** ** Tensors *)

Record tensor : Type := Tensor { shape : list nat; data : list num }.

Definition numel_of (s : list nat) : nat := fold_right Nat.mul 1 s.

Definition numel (t : tensor) : nat := numel_of (shape t).

Definition tensor_wf (t : tensor) : Prop := length (data t) = numel t.

Fixpoint map2 {A B C} (f : A -> B -> C) (l : list A) (l' : list B) : list C :=
  match l, l' with
  | a :: l, b :: l' => f a b :: map2 f l l'
  | _, _ => []
  end.

(** Broadcasting of two sizes of one dimension, and of two shapes aligned at
    their last dimension. *)
Definition bdim (a b : nat) : option nat :=
  if (a =? b)%nat then Some a
  else if (a =? 1)%nat then Some b
  else if (b =? 1)%nat then Some a
  else None.

Fixpoint broadcast_rev (a b : list nat) : option (list nat) :=
  match a, b with
  | [], _ => Some b
  | _, [] => Some a
  | x :: a', y :: b' =>
      match bdim x y, broadcast_rev a' b' with
      | Some d, Some r => Some (d :: r)
      | _, _ => None
      end
  end.

Definition broadcast_shapes (a b : list nat) : option (list nat) :=
  option_map (@rev nat) (broadcast_rev (rev a) (rev b)).

Definition pad_shape (n : nat) (s : list nat) : list nat :=
  repeat 1%nat (n - length s) ++ s.

(** [chunks sz n d]: the first [n] consecutive blocks of [sz] entries. *)
Fixpoint chunks (sz n : nat) (d : list num) : list (list num) :=
  match n with
  | O => []
  | S n' => firstn sz d :: chunks sz n' (skipn sz d)
  end.

(** Row-major data of a tensor of shape [from] expanded to shape [to] (same
    rank, every dimension equal or 1 in [from]). *)
Fixpoint expand (from to : list nat) (d : list num) : list num :=
  match from, to with
  | f :: from', t :: to' =>
      if (f =? t)%nat
      then flat_map (expand from' to') (chunks (numel_of from') f d)
      else concat (repeat (expand from' to' d) t)
  | _, _ => d
  end.

(** [a - b] on tensors. *)
Definition tsub (a b : tensor) : result tensor :=
  match broadcast_shapes (shape a) (shape b) with
  | Some s =>
      let n := length s in
      OK (Tensor s (map2 rsub (expand (pad_shape n (shape a)) s (data a))
                              (expand (pad_shape n (shape b)) s (data b))))
  | None => Error (RuntimeError "The size of tensor a must match the size of tensor b")
  end.

(** Iteration over a tensor: its slices along the first dimension. *)
Definition unbind (t : tensor) : result (list tensor) :=
  match shape t with
  | [] => Error (TypeError "iteration over a 0-d tensor")
  | n :: s' => OK (map (Tensor s') (chunks (numel_of s') n (data t)))
  end.

(** ** Matrices (two-dimensional tensors) *)

Record matrix : Type := Matrix { ncols : nat; mrows : list (list num) }.

Definition nrows (m : matrix) : nat := length (mrows m).

Definition matrix_wf (m : matrix) : Prop :=
  Forall (fun r => length r = ncols m) (mrows m).

Definition entry (m : matrix) (i j : nat) : num :=
  nth j (nth i (mrows m) []) rO.

Definition mk_matrix (r c : nat) (f : nat -> nat -> num) : matrix :=
  Matrix c (map (fun i => map (f i) (seq 0 c)) (seq 0 r)).

Definition sum_upto (n : nat) (f : nat -> num) : num :=
  fold_right (fun k acc => f k + acc) rO (seq 0 n).

(** [m.T] *)
Definition transpose (m : matrix) : matrix :=
  mk_matrix (ncols m) (nrows m) (fun i j => entry m j i).

(** [a @ b] *)
Definition matmul (a b : matrix) : result matrix :=
  if (ncols a =? nrows b)%nat
  then OK (mk_matrix (nrows a) (ncols b)
             (fun i j => sum_upto (ncols a) (fun k => entry a i k * entry b k j)))
  else Error (RuntimeError "mat1 and mat2 shapes cannot be multiplied").

Definition bidx (d i : nat) : nat := if (d =? 1)%nat then 0%nat else i.

(** [a * b] on matrices, with broadcasting. *)
Definition bmul (a b : matrix) : result matrix :=
  match bdim (nrows a) (nrows b), bdim (ncols a) (ncols b) with
  | Some r, Some c =>
      OK (mk_matrix r c
            (fun i j => entry a (bidx (nrows a) i) (bidx (ncols a) j)
                        * entry b (bidx (nrows b) i) (bidx (ncols b) j)))
  | _, _ => Error (RuntimeError "The size of tensor a must match the size of tensor b")
  end.

Definition mmap (f : num -> num) (m : matrix) : matrix :=
  Matrix (ncols m) (map (map f) (mrows m)).

(** [-m], [m ** 2] and [m.sum()] *)
Definition mneg (m : matrix) : matrix := mmap ropp m.
Definition msquare (m : matrix) : matrix := mmap (fun x => x * x) m.
Definition msum (m : matrix) : num :=
  fold_right (fun x acc => x + acc) rO (concat (mrows m)).

(** [t.view(-1, 1)] *)
Definition view_col (t : tensor) : matrix :=
  Matrix 1 (map (fun x => [x]) (data t)).

(** [torch.cat] of matrices, along the first dimension. *)
Definition cat (ms : list matrix) : result matrix :=
  match ms with
  | [] => Error (RuntimeError "torch.cat(): expected a non-empty list of Tensors")
  | m :: _ =>
      if forallb (fun m' => (ncols m' =? ncols m)%nat) ms
      then OK (Matrix (ncols m) (concat (map mrows ms)))
      else Error (RuntimeError "Sizes of tensors must match except in dimension 0")
  end.

(** [torch.split(m, sizes)]: consecutive blocks of rows. *)
Fixpoint split_rows (c : nat) (rs : list (list num)) (sizes : list nat) : list matrix :=
  match sizes with
  | [] => []
  | n :: sizes' => Matrix c (firstn n rs) :: split_rows c (skipn n rs) sizes'
  end.

Definition split (m : matrix) (sizes : list nat) : result (list matrix) :=
  if (fold_right Nat.add 0%nat sizes =? nrows m)%nat
  then OK (split_rows (ncols m) (mrows m) sizes)
  else Error (RuntimeError "split_with_sizes expects split_sizes to sum exactly to the size of the dimension").

(** [m.view(shape)] *)
Definition view (m : matrix) (s : list nat) : result tensor :=
  if (numel_of s =? nrows m * ncols m)%nat
  then OK (Tensor s (concat (mrows m)))
  else Error (RuntimeError "shape is invalid for input size").

(** [m.diagonal()] *)
Definition diagonal (m : matrix) : list num :=
  map (fun i => entry m i i) (seq 0 (Nat.min (nrows m) (ncols m))).

(** [x.clamp(lo, hi)], which is [min(max(x, lo), hi)]. *)
Definition smax (a b : num) : num := if rleb a b then b else a.
Definition smin (a b : num) : num := if rleb a b then a else b.
Definition clamp (lo hi x : num) : num := smin (smax x lo) hi.

(** Replace entry [j] of a row. *)
Fixpoint set_nth (j : nat) (x : num) (r : list num) : list num :=
  match r, j with
  | [], _ => []
  | _ :: r', O => x :: r'
  | y :: r', S j' => y :: set_nth j' x r'
  end.

(** [m.diagonal().add_(v)]: the diagonal is a view, the matrix is updated. *)
Fixpoint diag_add_rows (i : nat) (rs : list (list num)) (v : list num) : list (list num) :=
  match rs, v with
  | r :: rs', x :: v' => set_nth i (nth i r rO + x) r :: diag_add_rows (S i) rs' v'
  | _, _ => rs
  end.

Definition diagonal_add_ (m : matrix) (v : list num) : matrix :=
  Matrix (ncols m) (diag_add_rows 0 (mrows m) v).

(** ** The parameter store *)

Record Param : Type := { requires_grad : bool; p_tensor : tensor }.

(** A reference is the position of a parameter in the store.  The model and the
    parameter groups hold references to the same parameters; a reference past
    the end of the store names no parameter and is passed over. *)
Definition ref : Type := nat.
Definition store : Type := list Param.

Fixpoint set_param (p : ref) (q : Param) (s : store) : store :=
  match s, p with
  | [], _ => []
  | _ :: s', O => q :: s'
  | x :: s', S p' => x :: set_param p' q s'
  end.

Definition store_wf (s : store) : Prop :=
  Forall (fun q => tensor_wf (p_tensor q)) s.

(** Computations that read and update the store, and may raise: the store
    reached when an exception is raised is kept, as in-place updates are. *)
Definition M (A : Type) : Type := store -> store * result A.

Definition ret {A} (a : A) : M A := fun s => (s, OK a).

Definition bind {A B} (c : M A) (k : A -> M B) : M B :=
  fun s =>
    match c s with
    | (s', inl e) => (s', inl e)
    | (s', inr a) => k a s'
    end.

Definition lift {A} (c : result A) : M A := fun s => (s, c).
Definition get : M store := fun s => (s, OK s).

Notation "x <- c ;; k" := (bind c (fun x => k))
  (at level 61, c at next level, right associativity).
Notation "c ;;; k" := (bind c (fun _ => k))
  (at level 61, right associativity).

(** A [for] loop over a list. *)
Fixpoint for_each {A} (body : A -> M unit) (l : list A) : M unit :=
  match l with
  | [] => ret tt
  | a :: l' => body a ;;; for_each body l'
  end.

(** ** Collaborators *)

(** A tensor or a tuple of tensors: model inputs, outputs and targets. *)
Inductive value : Type :=
| Single (t : tensor)
| Tuple (ts : list tensor).

(** [nn.Module]: [model.parameters()] and [model(inputs)], which reads the
    current parameters. *)
Record Model : Type := {
  parameters : list ref;
  forward : store -> value -> value
}.

(** Automatic differentiation.  [jacobian f x] is
    [torch.autograd.functional.jacobian] at a scalar-valued [f].
    Modelled from the spec: [modjac] is [pypose.optim.functional.modjac] with
    [flatten=True], which is not among the sources: the Jacobian of the
    flattened model output, a function of the model, its current parameters
    and the inputs, the arguments of its two calls. *)
Class Autograd : Type := {
  jacobian : (matrix -> num) -> matrix -> matrix;
  modjac : Model -> store -> value -> matrix
}.

(** [torch.linalg] and the solvers of [torch.Tensor]; each may raise. *)
Class Linalg : Type := {
  pinverse : matrix -> result matrix;
  lstsq : matrix -> matrix -> option num -> option string -> result matrix;
  cholesky : matrix -> result matrix;
  cholesky_solve : matrix -> matrix -> result matrix
}.

Context {AG : Autograd} {LA : Linalg}.

(** ** [torch.optim.Optimizer.__init__], as far as the optimizers use it: one
    parameter group of the given parameters and defaults. *)
Definition Optimizer_init {G} (params : list ref) (defaults : list ref -> G)
  : result (list G) :=
  match params with
  | [] => Error (ValueError "optimizer got an empty parameter list")
  | _ => OK [defaults params]
  end.

(** ** GaussNewton *)

Record GNGroup : Type := {
  gn_params : list ref;
  rcond : option num;
  driver : option string
}.

Record GaussNewton : Type := {
  gn_model : Model;
  gn_kernel : matrix -> matrix;
  fast : bool;
  gn_param_groups : list GNGroup
}.

(** [kernel if kernel is not None else lambda x:x] *)
Definition kernel_or_identity (kernel : option (matrix -> matrix)) : matrix -> matrix :=
  match kernel with
  | Some k => k
  | None => fun x => x
  end.

Definition GN_init (model : Model) (kernel : option (matrix -> matrix)) (fast : bool)
    (rcond : option num) (driver : option string) : result GaussNewton :=
  let k := kernel_or_identity kernel in
  let? groups := Optimizer_init (parameters model)
                   (fun ps => {| gn_params := ps; rcond := rcond; driver := driver |}) in
  OK {| gn_model := model; gn_kernel := k; fast := fast; gn_param_groups := groups |}.

(** The targets of [zip(targets, outputs)]: a tuple, or a tensor iterated
    along its first dimension. *)
Definition iter_value (v : value) : result (list tensor) :=
  match v with
  | Tuple ts => OK ts
  | Single t => unbind t
  end.

(** [GaussNewton._residual], which [LevenbergMarquardt] inherits. *)
Definition _residual (model : Model) (s : store) (inputs : value)
    (targets : option value) : result matrix :=
  let outputs := forward model s inputs in
  match targets with
  | Some tg =>
      match outputs with
      | Tuple os =>
          let? ts := iter_value tg in
          let? cols := mapM (fun to => let? d := tsub (fst to) (snd to) in
                                       OK (view_col d)) (combine ts os) in
          cat cols
      | Single o =>
          match tg with
          | Single t => let? d := tsub t o in OK (view_col d)
          | Tuple _ => Error (TypeError "unsupported operand type(s) for -: 'tuple' and 'Tensor'")
          end
      end
  | None =>
      match outputs with
      | Tuple os => cat (map (fun o => mneg (view_col o)) os)
      | Single o => OK (mneg (view_col o))
      end
  end.

(** [[p.numel() for p in params if p.requires_grad]] *)
Definition trainable_numels (s : store) (params : list ref) : list nat :=
  flat_map (fun p => match nth_error s p with
                     | Some q => if requires_grad q then [numel (p_tensor q)] else []
                     | None => []
                     end) params.

(** [p.add_(v)] *)
Definition add_ (p : ref) (v : tensor) : M unit :=
  fun s =>
    match nth_error s p with
    | Some q =>
        (set_param p {| requires_grad := requires_grad q;
                        p_tensor := Tensor (shape (p_tensor q))
                                      (map2 radd (data (p_tensor q)) (data v)) |} s,
         OK tt)
    | None => (s, OK tt)
    end.

(** [[p.add_(d.view(p.shape)) for p, d in zip(params, D) if p.requires_grad]] *)
Fixpoint apply_updates (params : list ref) (D : list matrix) : M unit :=
  match params, D with
  | p :: params', d :: D' =>
      s <- get ;;
      match nth_error s p with
      | Some q =>
          if requires_grad q
          then v <- lift (view d (shape (p_tensor q))) ;;
               add_ p v ;;;
               apply_updates params' D'
          else apply_updates params' D'
      | None => apply_updates params' D'
      end
  | _, _ => ret tt
  end.

(** [K.T * J.T @ E]: [*] and [@] have the same precedence and associate to the
    left. *)
Definition weighted_gradient (K J E : matrix) : result matrix :=
  let? W := bmul (transpose K) (transpose J) in
  matmul W E.

(** The update solved for one group in [GaussNewton.step], by
    [torch.linalg.lstsq] when [fast] and by the pseudo-inverse otherwise. *)
Definition gn_solve (fast : bool) (pg : GNGroup) (K J E : matrix) : result matrix :=
  if fast
  then let? A := matmul (transpose J) J in
       let? b := weighted_gradient K J E in
       lstsq A b (rcond pg) (driver pg)
  else let? A := matmul (transpose J) J in
       let? P := pinverse A in
       let? b := weighted_gradient K J E in
       matmul P b.

(** The body of the loop over [param_groups] in [GaussNewton.step]. *)
Definition gn_group (opt : GaussNewton) (inputs : value) (E K : matrix)
    (pg : GNGroup) : M unit :=
  s <- get ;;
  let numels := trainable_numels s (gn_params pg) in
  let J := modjac (gn_model opt) s inputs in
  D <- lift (gn_solve (fast opt) pg K J E) ;;
  D <- lift (split D numels) ;;
  apply_updates (gn_params pg) D.

(** The loss returned by [step]: [kernel(residual ** 2).sum()]. *)
Definition loss_of (kernel : matrix -> matrix) (model : Model) (inputs : value)
    (targets : option value) : M num :=
  s <- get ;;
  E <- lift (_residual model s inputs targets) ;;
  ret (msum (kernel (msquare E))).

Definition GN_step (opt : GaussNewton) (inputs : value) (targets : option value)
  : M num :=
  s <- get ;;
  E <- lift (_residual (gn_model opt) s inputs targets) ;;
  let func := fun x => msum (gn_kernel opt x) in
  let K := jacobian func (msquare E) in
  for_each (gn_group opt inputs E K) (gn_param_groups opt) ;;;
  loss_of (gn_kernel opt) (gn_model opt) inputs targets.

(** ** LevenbergMarquardt *)

Record LMGroup : Type := {
  lm_params : list ref;
  damping : num;
  lm_min : num;
  lm_max : num
}.

Record LevenbergMarquardt : Type := {
  lm_model : Model;
  lm_kernel : matrix -> matrix;
  lm_param_groups : list LMGroup
}.

(** [assert cond, arg]: an [AssertionError] whose argument is [arg]. *)
Definition assert (cond : bool) (arg : exn) : result unit :=
  if cond then OK tt else Error (AssertionError arg).

(** [LevenbergMarquardt.__init__]; the damping formatted into the message is
    left out, and [min] and [max] are given (their defaults are floating-point
    literals). *)
Definition LM_init (model : Model) (damping : num) (kernel : option (matrix -> matrix))
    (min max : num) : result LevenbergMarquardt :=
  let k := kernel_or_identity kernel in
  let? _ := assert (rltb rO damping) (ValueError "Invalid damping factor: {}") in
  let? groups := Optimizer_init (parameters model)
                   (fun ps => {| lm_params := ps; damping := damping;
                                 lm_min := min; lm_max := max |}) in
  OK {| lm_model := model; lm_kernel := k; lm_param_groups := groups |}.

(** [A.diagonal().add_(damping * A.diagonal().clamp(min, max))] *)
Definition damp (pg : LMGroup) (A : matrix) : matrix :=
  diagonal_add_ A (map (fun x => damping pg * clamp (lm_min pg) (lm_max pg) x) (diagonal A)).

(** The matrix factorized in one group of [LevenbergMarquardt.step]. *)
Definition lm_system (pg : LMGroup) (J : matrix) : result matrix :=
  let? A := matmul (transpose J) J in
  OK (damp pg A).

(** The update solved for one group in [LevenbergMarquardt.step]. *)
Definition lm_solve (pg : LMGroup) (K J E : matrix) : result matrix :=
  let? A := lm_system pg J in
  let? b := weighted_gradient K J E in
  let? L := cholesky A in
  cholesky_solve b L.

(** The body of the loop over [param_groups] in [LevenbergMarquardt.step]. *)
Definition lm_group (opt : LevenbergMarquardt) (inputs : value) (E K : matrix)
    (pg : LMGroup) : M unit :=
  s <- get ;;
  let numels := trainable_numels s (lm_params pg) in
  let J := modjac (lm_model opt) s inputs in
  D <- lift (lm_solve pg K J E) ;;
  D <- lift (split D numels) ;;
  apply_updates (lm_params pg) D.

Definition LM_step (opt : LevenbergMarquardt) (inputs : value) (targets : option value)
  : M num :=
  s <- get ;;
  E <- lift (_residual (lm_model opt) s inputs targets) ;;
  let func := fun x => msum (lm_kernel opt x) in
  let K := jacobian func (msquare E) in
  for_each (lm_group opt inputs E K) (lm_param_groups opt) ;;;
  loss_of (lm_kernel opt) (lm_model opt) inputs targets.

End Optimizer.

Arguments Single {SC} t.
Arguments Tuple {SC} ts.

(** ** Concrete collaborators over the integers

    The optimizers above are generic in their collaborators.  The instances
    below are exact over [Z] and are used to run [step] on concrete models. *)

Section Concrete.

Local Open Scope Z_scope.

Definition bump_entry (x : matrix) (i j : nat) : matrix :=
  mk_matrix (nrows x) (ncols x)
    (fun i' j' => if ((i' =? i) && (j' =? j))%nat
                  then entry x i' j' + 1 else entry x i' j').

(** Forward differences with unit step: the derivative of an affine function. *)
Definition fd_jacobian (f : matrix -> Z) (x : matrix) : matrix :=
  mk_matrix (nrows x) (ncols x) (fun i j => f (bump_entry x i j) - f x).

Definition flat_value (v : value) : list Z :=
  match v with
  | Single t => data t
  | Tuple ts => concat (map (@data Z_scalar) ts)
  end.

Fixpoint bump_nth (k : nat) (d : list Z) : list Z :=
  match d, k with
  | [], _ => []
  | x :: d', O => x + 1 :: d'
  | x :: d', S k' => x :: bump_nth k' d'
  end.

Definition bump_param (s : store) (p : ref) (k : nat) : store :=
  match nth_error s p with
  | Some q => set_param p {| requires_grad := requires_grad q;
                             p_tensor := Tensor (shape (p_tensor q))
                                           (bump_nth k (data (p_tensor q))) |} s
  | None => s
  end.

(** The scalar entries of the trainable parameters, in concatenation order. *)
Definition trainable_coords (s : store) (params : list ref) : list (ref * nat) :=
  flat_map (fun p => match nth_error s p with
                     | Some q => if requires_grad q
                                 then map (pair p) (seq 0 (numel (p_tensor q)))
                                 else []
                     | None => []
                     end) params.

(** Modelled from the spec: [modjac], the M x N Jacobian of the flattened model
    output with respect to the concatenation of all trainable parameters of the
    model, one column per scalar entry and none for a frozen parameter; here by
    forward differences, exact for the affine models below. *)
Definition fd_modjac (m : Model) (s : store) (x : value) : matrix :=
  let y := flat_value (forward m s x) in
  let coords := trainable_coords s (parameters m) in
  mk_matrix (length y) (length coords)
    (fun i j => let pk := nth j coords (O, O) in
                nth i (flat_value (forward m (bump_param s (fst pk) (snd pk)) x)) 0
                - nth i y 0).

Definition fd_autograd : Autograd :=
  {| jacobian := fd_jacobian; modjac := fd_modjac |}.

(** An exact solver for diagonal systems over [Z]; it raises where the result
    is not an integer matrix, and on a matrix that is not diagonal. *)
Definition is_diagonal (A : matrix) : bool :=
  (nrows A =? ncols A)%nat &&
  forallb (fun i => forallb (fun j => (i =? j)%nat || (entry A i j =? 0))
                      (seq 0 (ncols A)))
          (seq 0 (nrows A)).

Definition unsupported {A} : result A :=
  Error (LinAlgError "not a diagonal system with an integer solution").

Definition mk_matrixM (r c : nat) (f : nat -> nat -> result Z) : result matrix :=
  let? rs := mapM (fun i => mapM (f i) (seq 0 c)) (seq 0 r) in
  OK (Matrix c rs).

(** [b / d], the minimum-norm solution of [d * x = b] when [d = 0]. *)
Definition exact_div (b d : Z) : result Z :=
  if d =? 0 then OK 0
  else if b mod d =? 0 then OK (b / d)
  else unsupported.

Definition diag_pinverse (A : matrix) : result matrix :=
  if is_diagonal A
  then mk_matrixM (nrows A) (ncols A)
         (fun i j => if (i =? j)%nat then exact_div 1 (entry A i i) else OK 0)
  else unsupported.

Definition diag_lstsq (A b : matrix) (rcond : option Z) (driver : option string)
  : result matrix :=
  if is_diagonal A && (nrows b =? nrows A)%nat
  then mk_matrixM (nrows b) (ncols b) (fun i j => exact_div (entry b i j) (entry A i i))
  else unsupported.

Definition diag_cholesky (A : matrix) : result matrix :=
  if is_diagonal A
  then mk_matrixM (nrows A) (ncols A)
         (fun i j =>
            if (i =? j)%nat
            then let d := entry A i i in
                 if d <=? 0
                 then Error (LinAlgError "the input is not positive-definite")
                 else if Z.sqrt d * Z.sqrt d =? d then OK (Z.sqrt d) else unsupported
            else OK 0)
  else unsupported.

Definition diag_cholesky_solve (b L : matrix) : result matrix :=
  if is_diagonal L && (nrows b =? nrows L)%nat
  then mk_matrixM (nrows b) (ncols b)
         (fun i j => if entry L i i =? 0 then unsupported
                     else exact_div (entry b i j) (entry L i i * entry L i i))
  else unsupported.

Definition diag_linalg : Linalg :=
  {| pinverse := diag_pinverse; lstsq := diag_lstsq;
     cholesky := diag_cholesky; cholesky_solve := diag_cholesky_solve |}.

(** A scalar parameter, and the model whose outputs are some of its own
    parameters. *)
Definition scalar_param (trainable : bool) (x : Z) : Param :=
  {| requires_grad := trainable; p_tensor := Tensor [1%nat] [x] |}.

Definition vector_param (trainable : bool) (xs : list Z) : Param :=
  {| requires_grad := trainable; p_tensor := Tensor [length xs] xs |}.

Definition tensor_at (s : store) (p : ref) : tensor :=
  match nth_error s p with
  | Some q => p_tensor q
  | None => Tensor [0%nat] []
  end.

(** [forward] returns the parameter [p] itself. *)
Definition single_model (params : list ref) (p : ref) : Model :=
  {| parameters := params; forward := fun s _ => Single (tensor_at s p) |}.

(** [forward] returns the tuple of the parameters [outs]. *)
Definition tuple_model (params : list ref) (outs : list ref) : Model :=
  {| parameters := params; forward := fun s _ => Tuple (map (tensor_at s) outs) |}.

Definition no_input : value := Tuple [].

Definition scalar_tensor (x : Z) : tensor := Tensor [1%nat] [x].
Definition vector_tensor (xs : list Z) : tensor := Tensor [length xs] xs.

Definition GN_of (model : Model) (fast : bool) (groups : list (list ref)) : GaussNewton :=
  {| gn_model := model; gn_kernel := fun x => x; fast := fast;
     gn_param_groups := map (fun ps => {| gn_params := ps; rcond := None; driver := None |})
                          groups |}.

Definition LM_of (model : Model) (damping min max : Z) (groups : list (list ref))
  : LevenbergMarquardt :=
  {| lm_model := model; lm_kernel := fun x => x;
     lm_param_groups := map (fun ps => {| lm_params := ps; damping := damping;
                                          lm_min := min; lm_max := max |}) groups |}.

(** *** Models and stores to run the optimizers on *)

(** One trainable scalar, which the model returns. *)
Definition identity_model : Model := single_model [0%nat] 0%nat.
Definition identity_store (x : Z) : store := [scalar_param true x].
Definition identity_GN : GaussNewton := GN_of identity_model false [[0%nat]].
Definition identity_LM : LevenbergMarquardt := LM_of identity_model 3 0 1 [[0%nat]].

(** The same parameter in two groups, as [param_groups] is a list the caller
    can extend. *)
Definition twice_GN : GaussNewton := GN_of identity_model false [[0%nat]; [0%nat]].
Definition twice_LM : LevenbergMarquardt := LM_of identity_model 3 0 1 [[0%nat]; [0%nat]].

(** A frozen scalar before a trainable scalar, which the model returns. *)
Definition frozen_first_model : Model := single_model [0%nat; 1%nat] 1%nat.
Definition frozen_first_store : store := [scalar_param false 3; scalar_param true 5].
Definition frozen_first_GN : GaussNewton := GN_of frozen_first_model false [[0%nat; 1%nat]].
Definition frozen_first_LM : LevenbergMarquardt :=
  LM_of frozen_first_model 3 0 1 [[0%nat; 1%nat]].

(** A frozen scalar between trainable parameters of one and two entries; the
    model returns its trainable parameters. *)
Definition interleaved_model : Model :=
  tuple_model [0%nat; 1%nat; 2%nat; 3%nat] [0%nat; 2%nat; 3%nat].
Definition interleaved_store : store :=
  [scalar_param true 1; scalar_param false 2; scalar_param true 3;
   vector_param true [4; 5]].
Definition interleaved_GN : GaussNewton :=
  GN_of interleaved_model false [[0%nat; 1%nat; 2%nat; 3%nat]].
Definition interleaved_LM : LevenbergMarquardt :=
  LM_of interleaved_model 3 0 1 [[0%nat; 1%nat; 2%nat; 3%nat]].

(** Three trainable scalars, all returned, divided among two groups. *)
Definition three_model : Model :=
  tuple_model [0%nat; 1%nat; 2%nat] [0%nat; 1%nat; 2%nat].
Definition three_store : store :=
  [scalar_param true 5; scalar_param true 5; scalar_param true 5].
Definition three_targets : option value :=
  Some (Tuple [scalar_tensor 7; scalar_tensor 8; scalar_tensor 9]).
Definition first_group : GNGroup :=
  {| gn_params := [0%nat]; rcond := None; driver := None |}.
Definition second_group : GNGroup :=
  {| gn_params := [1%nat; 2%nat]; rcond := None; driver := None |}.
Definition two_groups_GN : GaussNewton :=
  {| gn_model := three_model; gn_kernel := fun x => x; fast := false;
     gn_param_groups := [first_group; second_group] |}.
Definition swapped_groups_GN : GaussNewton :=
  {| gn_model := three_model; gn_kernel := fun x => x; fast := false;
     gn_param_groups := [second_group; first_group] |}.

(** A model returning a tuple of one output. *)
Definition one_output_model : Model := tuple_model [0%nat] [0%nat].
Definition one_output_GN : GaussNewton := GN_of one_output_model false [[0%nat]].

(** A model returning a scalar and a vector. *)
Definition pair_model : Model := tuple_model [0%nat; 1%nat] [0%nat; 1%nat].
Definition pair_store : store := [scalar_param true 5; vector_param true [6; 7]].

End Concrete.

(** ** The quantities of the specification *)

Section Specification.

Context {SC : Scalar}.

Local Open Scope num_scope.

(** [JtJ], the Gram matrix of the columns of [J]. *)
Definition gram (J : matrix) : matrix :=
  mk_matrix (ncols J) (ncols J)
    (fun i j => sum_upto (nrows J) (fun k => entry J k i * entry J k j)).

(** The normal matrix of LM as the specification writes it:
    [JtJ + lambda * clamp(diag(JtJ), min, max)], the second term on the
    diagonal. *)
Definition lm_normal_matrix (pg : LMGroup) (J : matrix) : matrix :=
  let A := gram J in
  mk_matrix (ncols J) (ncols J)
    (fun i j => if (i =? j)%nat
                then entry A i j + damping pg * clamp (lm_min pg) (lm_max pg) (entry A i i)
                else entry A i j).

(** The right-hand side as the specification writes it, [Jt (K . E)]: the
    kernel weights multiply the residuals, then the columns of [J] reduce. *)
Definition irls_gradient (K J E : matrix) : result matrix :=
  let? KE := bmul K E in
  matmul (transpose J) KE.

(** A list of entries as a column, and the residual as the specification
    writes it: [target - output], or [-output] without targets, flattened and
    concatenated across the output tuple in order. *)
Definition column (xs : list num) : matrix := Matrix 1 (map (fun x => [x]) xs).

Definition residual_spec (outputs : value) (targets : option value) : matrix :=
  match targets, outputs with
  | Some (Tuple ts), Tuple os =>
      column (concat (map2 (fun t o => map2 rsub (data t) (data o)) ts os))
  | Some (Single t), Single o => column (map2 rsub (data t) (data o))
  | None, Tuple os => column (concat (map (fun o => map ropp (data o)) os))
  | None, Single o => column (map ropp (data o))
  | Some (Single _), Tuple _ | Some (Tuple _), Single _ => column []
  end.

(** Targets and outputs of the same arity and shapes. *)
Definition same_shape (t o : tensor) : Prop :=
  shape t = shape o /\ tensor_wf t /\ tensor_wf o.

Definition targets_match (outputs : value) (targets : option value) : Prop :=
  match targets, outputs with
  | Some (Tuple ts), Tuple os => Forall2 same_shape ts os /\ os <> []
  | Some (Single t), Single o => same_shape t o
  | None, Tuple os => os <> []
  | None, Single o => True
  | Some (Single _), Tuple _ | Some (Tuple _), Single _ => False
  end.

(** How a parameter may change in a [step]: it keeps its flag and its shape,
    and a frozen parameter keeps its data as well. *)
Definition param_evolves (q q' : Param) : Prop :=
  requires_grad q' = requires_grad q /\
  shape (p_tensor q') = shape (p_tensor q) /\
  (requires_grad q = false -> q' = q).

Definition evolves (s s' : store) : Prop := Forall2 param_evolves s s'.

(** A computation whose final store is related to its initial store. *)
Definition preserves {A} (R : store -> store -> Prop) (c : M A) : Prop :=
  forall s, R s (fst (c s)).

(** The zero matrix of its shape. *)
Definition is_zero (m : matrix) : Prop :=
  Forall (fun r => r = repeat rO (ncols m)) (mrows m).

Definition total (l : list nat) : nat := fold_right Nat.add 0%nat l.

(** What the zero-residual property asks of the two solvers taken from
    [torch]: a zero right-hand side has the zero solution. *)
Definition zero_solution_laws {LA : Linalg} : Prop :=
  (forall A b rc dr X, lstsq A b rc dr = inr X -> is_zero b -> is_zero X) /\
  (forall b L X, cholesky_solve b L = inr X -> is_zero b -> is_zero X).

(** A store that a computation leaves as it is, when its tensors are well
    formed. *)
Definition unchanged (s s' : store) : Prop := store_wf s -> s' = s.

(** The part of claim C2 on the size of the Jacobian, for the first group of an
    optimizer: the Jacobian it solves with, at the parameters the call starts
    from, has one column per trainable entry of that group. *)
Definition group_columns_claim {AG : Autograd} : Prop :=
  forall (gn : GaussNewton) (inputs : value) (s : store) (pg : GNGroup)
         (rest : list GNGroup),
    gn_param_groups gn = pg :: rest ->
    ncols (modjac (gn_model gn) s inputs) = total (trainable_numels s (gn_params pg)).

(** The parameter [q] after its slice [d] of the update has been added. *)
Definition updated (q : Param) (d : matrix) : Param :=
  {| requires_grad := requires_grad q;
     p_tensor := Tensor (shape (p_tensor q))
                   (map2 radd (data (p_tensor q)) (concat (mrows d))) |}.

End Specification.

(** ** Further definitions *)

Section Further.

Context {SC : Scalar}.

Local Open Scope num_scope.

(** [count_parameters] of [test/lietensor.py]:
    [sum(p.numel() for p in model.parameters() if p.requires_grad)]. *)
Definition count_parameters (model : Model) (s : store) : nat :=
  fold_right Nat.add 0%nat (trainable_numels s (parameters model)).

(** Targets of zeros, of the shapes of the outputs. *)
Definition zeros_like (t : tensor) : tensor := Tensor (shape t) (repeat rO (numel t)).

Definition zero_targets (outputs : value) : value :=
  match outputs with
  | Single o => Single (zeros_like o)
  | Tuple os => Tuple (map zeros_like os)
  end.

Definition value_wf (v : value) : Prop :=
  match v with
  | Single o => tensor_wf o
  | Tuple os => Forall tensor_wf os
  end.

(** The entries of a tensor or of a tuple of tensors, in order. *)
Definition flat_entries (v : value) : list num :=
  match v with
  | Single o => data o
  | Tuple os => concat (map data os)
  end.

(** The update [D] reaches the parameters [params] of the store [s] slice by
    slice: it is cut into consecutive blocks of rows, in order, one for each
    parameter and of as many rows as the parameter has entries; each parameter
    has its block added, and the other parameters are as they were. *)
Definition slices_added (params : list ref) (D : matrix) (s s' : store) : Prop :=
  exists Ds,
    concat (map mrows Ds) = mrows D /\
    Forall2 (fun p d => exists q, nth_error s p = Some q
                                  /\ nrows d = numel (p_tensor q)
                                  /\ nth_error s' p = Some (updated q d))
            params Ds /\
    (forall p, ~ In p params -> nth_error s' p = nth_error s p).

(** The column of [n] ones: the kernel weights of the identity kernel. *)
Definition ones (n : nat) : matrix := column (repeat rI n).

(** A model of one parameter, which is its output. *)
Definition output_param (p : ref) : Model :=
  {| parameters := [p];
     forward := fun s _ => Single (match nth_error s p with
                                   | Some q => p_tensor q
                                   | None => Tensor [0%nat] []
                                   end) |}.

(** [[p.numel() for p in params]]: the sizes of all the parameters of a group,
    trainable or frozen. *)
Definition all_numels (s : store) (params : list ref) : list nat :=
  flat_map (fun p => match nth_error s p with
                     | Some q => [numel (p_tensor q)]
                     | None => []
                     end) params.

(** The update [D] of a group is a column with a row for every entry of every
    parameter of the group, frozen ones included, as a Jacobian over all the
    parameters gives it; the parameters are distinct and in the store, and a
    frozen parameter is not empty. *)
Definition covers_every_entry (D : matrix) (s : store) (params : list ref) : Prop :=
  NoDup params /\
  (forall p, In p params ->
             exists q, nth_error s p = Some q
                       /\ (requires_grad q = false -> (0 < numel (p_tensor q))%nat)) /\
  ncols D = 1%nat /\
  nrows D = total (all_numels s params).

(** A store of one trainable scalar, and [GaussNewton] on the model that
    returns it, with the identity kernel. *)
Definition one_param (x : num) : store :=
  [ {| requires_grad := true; p_tensor := Tensor [1%nat] [x] |} ].

Definition GN_output_param (fast : bool) (rc : option num) (dr : option string)
  : GaussNewton :=
  {| gn_model := output_param 0; gn_kernel := fun m => m; fast := fast;
     gn_param_groups := [ {| gn_params := [0%nat]; rcond := rc; driver := dr |} ] |}.

End Further.

Section FurtherConcrete.

Local Open Scope Z_scope.

(** LM whose clamp bounds are negative: the damped matrix is not positive
    definite. *)
Definition negative_clamp_LM : LevenbergMarquardt :=
  LM_of identity_model 1 (-5) (-5) [[0%nat]].

(** A model that returns the empty tuple. *)
Definition no_output_model : Model := tuple_model [0%nat] [].
Definition no_output_GN : GaussNewton := GN_of no_output_model false [[0%nat]].

(** [GaussNewton] on the model of a scalar and a vector. *)
Definition pair_GN : GaussNewton := GN_of pair_model false [[0%nat; 1%nat]].
Definition pair_group : GNGroup :=
  {| gn_params := [0%nat; 1%nat]; rcond := None; driver := None |}.
Definition pair_targets : option value :=
  Some (Tuple [scalar_tensor 7; vector_tensor [10; 20]]).

Definition sample_jacobian : matrix := Matrix (SC:=Z_scalar) 2 [[1; 2]; [3; 4]].
Definition sample_group : LMGroup :=
  {| lm_params := [0%nat]; damping := 3; lm_min := 0; lm_max := 1 |}.

(** The scalar entries of all the parameters, in concatenation order. *)
Definition every_coords (s : store) (params : list ref) : list (ref * nat) :=
  flat_map (fun p => match nth_error s p with
                     | Some q => map (pair p) (seq 0 (numel (p_tensor q)))
                     | None => []
                     end) params.

(** A Jacobian of the flattened model output with a column for every entry of
    every parameter of the model, frozen or not, by forward differences (exact
    for the affine models of this file); the column of an entry that the
    output does not depend on is zero. *)
Definition fd_modjac_all (m : Model) (s : store) (x : value) : matrix :=
  let y := flat_value (forward m s x) in
  let coords := every_coords s (parameters m) in
  mk_matrix (length y) (length coords)
    (fun i j => let pk := nth j coords (O, O) in
                nth i (flat_value (forward m (bump_param s (fst pk) (snd pk)) x)) 0
                - nth i y 0).

Definition fd_autograd_all : Autograd :=
  {| jacobian := fd_jacobian; modjac := fd_modjac_all |}.

End FurtherConcrete.

(** * Properties *)

Unset Implicit Arguments.

Section Facts.

Context {SC : Scalar} {AG : Autograd} {LA : Linalg}.

Local Open Scope num_scope.

Add Ring num_ring_inst : num_ring.

(** ** Matrices built entry by entry *)

Lemma nrows_mk_matrix r c f : nrows (mk_matrix r c f) = r.
Proof. unfold nrows, mk_matrix; simpl. now rewrite length_map, length_seq. Qed.

Lemma ncols_mk_matrix r c f : ncols (mk_matrix r c f) = c.
Proof. reflexivity. Qed.

Lemma nth_map_seq {A} (g : nat -> A) (d : A) n a i :
  (i < n)%nat -> nth i (map g (seq a n)) d = g (a + i)%nat.
Proof.
  revert a i; induction n as [|n IH]; intros a i Hi; [lia|].
  destruct i as [|i]; simpl.
  - now rewrite Nat.add_0_r.
  - rewrite IH by lia. f_equal; lia.
Qed.

Lemma entry_mk_matrix r c f i j :
  (i < r)%nat -> (j < c)%nat -> entry (mk_matrix r c f) i j = f i j.
Proof.
  intros Hi Hj. unfold entry, mk_matrix; simpl.
  rewrite (nth_map_seq (fun i => map (f i) (seq 0 c)) [] r 0 i Hi); simpl.
  now rewrite (nth_map_seq (f i) rO c 0 j Hj).
Qed.

Lemma mk_matrix_ext r c f g :
  (forall i j, (i < r)%nat -> (j < c)%nat -> f i j = g i j) ->
  mk_matrix r c f = mk_matrix r c g.
Proof.
  intros H. unfold mk_matrix. f_equal.
  apply map_ext_in; intros i Hi. apply in_seq in Hi.
  apply map_ext_in; intros j Hj. apply in_seq in Hj.
  apply H; lia.
Qed.

Lemma sum_upto_ext n f g :
  (forall k, (k < n)%nat -> f k = g k) -> sum_upto n f = sum_upto n g.
Proof.
  intros H. unfold sum_upto.
  assert (Hin : forall k, In k (seq 0 n) -> f k = g k).
  { intros k Hk. apply in_seq in Hk. apply H; lia. }
  induction (seq 0 n) as [|k l IH]; simpl; [reflexivity|].
  rewrite Hin by (now left). rewrite IH; [reflexivity|].
  intros k' Hk'. apply Hin. now right.
Qed.

Lemma sum_upto_zero n f :
  (forall k, (k < n)%nat -> f k = rO) -> sum_upto n f = rO.
Proof.
  intros H. rewrite (sum_upto_ext n f (fun _ => rO) H).
  unfold sum_upto. induction (seq 0 n) as [|k l IH]; simpl; [reflexivity|].
  rewrite IH. ring.
Qed.

Lemma entry_transpose m i j :
  (i < ncols m)%nat -> (j < nrows m)%nat -> entry (transpose m) i j = entry m j i.
Proof. intros Hi Hj. unfold transpose. now rewrite entry_mk_matrix. Qed.

Lemma nrows_transpose m : nrows (transpose m) = ncols m.
Proof. apply nrows_mk_matrix. Qed.

Lemma ncols_transpose m : ncols (transpose m) = nrows m.
Proof. reflexivity. Qed.

Lemma matmul_transpose_self J : matmul (transpose J) J = OK (gram J).
Proof.
  unfold matmul. rewrite ncols_transpose, Nat.eqb_refl, nrows_transpose.
  f_equal. apply mk_matrix_ext; intros i j Hi Hj.
  apply sum_upto_ext; intros k Hk. now rewrite entry_transpose.
Qed.

(** ** The store monad *)

Lemma bind_get {B} (k : store -> M B) s : bind get k s = k s s.
Proof. reflexivity. Qed.

(** ** Construction of LevenbergMarquardt *)

Lemma LM_init_invalid_damping model d kernel lo hi :
  rltb rO d = false ->
  LM_init model d kernel lo hi
  = Error (AssertionError (ValueError "Invalid damping factor: {}")).
Proof. intros H. unfold LM_init, assert. now rewrite H. Qed.

Lemma LM_init_valid_damping model d kernel lo hi :
  rltb rO d = true -> parameters model <> [] ->
  LM_init model d kernel lo hi
  = OK {| lm_model := model; lm_kernel := kernel_or_identity kernel;
          lm_param_groups := [ {| lm_params := parameters model; damping := d;
                                  lm_min := lo; lm_max := hi |} ] |}.
Proof.
  intros H Hp. unfold LM_init, assert, Optimizer_init. rewrite H; simpl.
  destruct (parameters model); [congruence | reflexivity].
Qed.

(** ** The damped normal matrix *)

Lemma set_nth_map_seq (f : nat -> num) y n b k :
  (k < n)%nat ->
  set_nth k y (map f (seq b n))
  = map (fun j => if (b + k =? j)%nat then y else f j) (seq b n).
Proof.
  revert b k; induction n as [|n IH]; intros b k Hk; [lia|].
  destruct k as [|k]; simpl.
  - rewrite Nat.add_0_r, Nat.eqb_refl. f_equal.
    apply map_ext_in; intros j Hj. apply in_seq in Hj.
    destruct (Nat.eqb_spec b j); [lia | reflexivity].
  - destruct (Nat.eqb_spec (b + S k) b); [lia|]. f_equal.
    rewrite IH by lia. apply map_ext; intros j.
    now replace (S b + k)%nat with (b + S k)%nat by lia.
Qed.

Lemma diag_add_rows_mk (g : nat -> nat -> num) (h : nat -> num) n m a :
  (a + m <= n)%nat ->
  diag_add_rows a (map (fun i => map (g i) (seq 0 n)) (seq a m)) (map h (seq a m))
  = map (fun i => map (fun j => if (i =? j)%nat then g i i + h i else g i j) (seq 0 n))
        (seq a m).
Proof.
  revert a; induction m as [|m IH]; intros a Ha; simpl; [reflexivity|].
  rewrite IH by lia. f_equal.
  rewrite (nth_map_seq (g a) rO n 0 a) by lia. simpl.
  rewrite set_nth_map_seq by lia. reflexivity.
Qed.

Lemma diagonal_mk_matrix n g :
  diagonal (mk_matrix n n g) = map (fun i => g i i) (seq 0 n).
Proof.
  unfold diagonal. rewrite nrows_mk_matrix, ncols_mk_matrix, Nat.min_id.
  apply map_ext_in; intros i Hi. apply in_seq in Hi.
  apply entry_mk_matrix; lia.
Qed.

Lemma damp_mk_matrix pg n g :
  damp pg (mk_matrix n n g)
  = mk_matrix n n
      (fun i j => if (i =? j)%nat
                  then g i i + damping pg * clamp (lm_min pg) (lm_max pg) (g i i)
                  else g i j).
Proof.
  unfold damp, diagonal_add_. rewrite diagonal_mk_matrix, map_map.
  rewrite ncols_mk_matrix. unfold mk_matrix; simpl. f_equal.
  now rewrite (diag_add_rows_mk g
                 (fun i => damping pg * clamp (lm_min pg) (lm_max pg) (g i i))) by lia.
Qed.

Lemma damp_gram pg J : damp pg (gram J) = lm_normal_matrix pg J.
Proof.
  unfold lm_normal_matrix. unfold gram at 1. rewrite damp_mk_matrix.
  apply mk_matrix_ext; intros i j Hi Hj.
  unfold gram. rewrite !entry_mk_matrix by lia.
  destruct (Nat.eqb_spec i j) as [->|]; reflexivity.
Qed.

Lemma lm_system_normal pg J : lm_system pg J = OK (lm_normal_matrix pg J).
Proof. unfold lm_system. rewrite matmul_transpose_self. simpl. now rewrite damp_gram. Qed.

(** C7.  In every [LevenbergMarquardt.step], the matrix handed to the Cholesky
    factorization for a group, and then solved against, is [JtJ] with
    [damping * clamp(diag(JtJ), min, max)] added to its diagonal, for the
    damping, min and max of that group and the Jacobian of the model at the
    current parameters. *)
Theorem LM_factorizes_damped_normal_matrix :
  forall (opt : LevenbergMarquardt) (inputs : value) (E K : matrix) (pg : LMGroup)
         (s : store),
    let J := modjac (lm_model opt) s inputs in
    lm_system pg J = OK (lm_normal_matrix pg J) /\
    lm_solve pg K J E
    = (let? b := weighted_gradient K J E in
       let? L := cholesky (lm_normal_matrix pg J) in
       cholesky_solve b L) /\
    lm_group opt inputs E K pg s
    = match weighted_gradient K J E with
      | inl e => (s, inl e)
      | inr b =>
          match cholesky (lm_normal_matrix pg J) with
          | inl e => (s, inl e)
          | inr L =>
              match cholesky_solve b L with
              | inl e => (s, inl e)
              | inr D =>
                  bind (lift (split D (trainable_numels s (lm_params pg))))
                       (apply_updates (lm_params pg)) s
              end
          end
      end.
Proof.
  intros opt inputs E K pg s J.
  assert (Hsolve : lm_solve pg K J E
                   = (let? b := weighted_gradient K J E in
                      let? L := cholesky (lm_normal_matrix pg J) in
                      cholesky_solve b L)).
  { unfold lm_solve. now rewrite lm_system_normal. }
  split; [apply lm_system_normal | split; [exact Hsolve|]].
  unfold lm_group. rewrite bind_get. fold J. rewrite Hsolve.
  destruct (weighted_gradient K J E) as [e|b]; [reflexivity|]; simpl.
  destruct (cholesky (lm_normal_matrix pg J)) as [e|L]; [reflexivity|]; simpl.
  destruct (cholesky_solve b L) as [e|D]; reflexivity.
Qed.

(** ** The weighted gradient *)

Lemma bidx_lt d i : (i < d)%nat -> bidx d i = i.
Proof. unfold bidx. destruct (Nat.eqb_spec d 1); [lia | reflexivity]. Qed.

Lemma bdim_refl n : bdim n n = Some n.
Proof. unfold bdim. now rewrite Nat.eqb_refl. Qed.

Lemma bdim_one_l n : bdim 1 n = Some n.
Proof. unfold bdim. destruct (Nat.eqb_spec 1 n) as [<-|]; reflexivity. Qed.

Lemma weighted_gradient_irls K J E :
  ncols K = 1%nat -> nrows K = nrows J -> nrows E = nrows J ->
  weighted_gradient K J E = irls_gradient K J E.
Proof.
  intros HK1 HKr HEr. unfold weighted_gradient, irls_gradient, bmul.
  rewrite !nrows_transpose, !ncols_transpose, HK1, HKr, HEr.
  rewrite !bdim_refl, !bdim_one_l. simpl. unfold matmul.
  rewrite nrows_mk_matrix, !ncols_mk_matrix, ncols_transpose, HEr, Nat.eqb_refl.
  rewrite !nrows_mk_matrix, nrows_transpose, Nat.eqb_refl. unfold OK. f_equal.
  apply mk_matrix_ext; intros i j Hi Hj.
  apply sum_upto_ext; intros k Hk.
  rewrite !entry_mk_matrix by lia.
  rewrite !(bidx_lt _ _ Hk), (bidx_lt _ _ Hi), (bidx_lt _ _ Hj).
  unfold bidx at 1 2; simpl.
  rewrite !entry_transpose by lia. ring.
Qed.

(** C6.  In the two solve paths of GN and in the Cholesky path of LM the
    right-hand side solved against is [Jt (K . E)]: the weight of each residual
    multiplies that residual before the reduction over the columns of [J]. *)
Theorem solves_against_weighted_residuals :
  forall (gpg : GNGroup) (lpg : LMGroup) (K J E : matrix),
    ncols K = 1%nat -> nrows K = nrows J -> nrows E = nrows J ->
    weighted_gradient K J E = irls_gradient K J E /\
    gn_solve false gpg K J E
    = (let? P := pinverse (gram J) in
       let? b := irls_gradient K J E in
       matmul P b) /\
    gn_solve true gpg K J E
    = (let? b := irls_gradient K J E in
       lstsq (gram J) b (rcond gpg) (driver gpg)) /\
    lm_solve lpg K J E
    = (let? b := irls_gradient K J E in
       let? L := cholesky (lm_normal_matrix lpg J) in
       cholesky_solve b L).
Proof.
  intros gpg lpg K J E HK1 HKr HEr.
  pose proof (weighted_gradient_irls K J E HK1 HKr HEr) as Hw.
  unfold gn_solve, lm_solve.
  rewrite lm_system_normal, matmul_transpose_self, Hw. simpl. auto.
Qed.

(** ** The residual *)

Lemma broadcast_rev_refl l : broadcast_rev l l = Some l.
Proof.
  induction l as [|x l IH]; simpl; [reflexivity|].
  now rewrite bdim_refl, IH.
Qed.

Lemma broadcast_shapes_refl l : broadcast_shapes l l = Some l.
Proof.
  unfold broadcast_shapes. rewrite broadcast_rev_refl; simpl.
  now rewrite rev_involutive.
Qed.

Lemma pad_shape_full l : pad_shape (length l) l = l.
Proof. unfold pad_shape. now rewrite Nat.sub_diag. Qed.

Lemma chunks_concat sz n (d : list num) :
  length d = (n * sz)%nat ->
  concat (chunks sz n d) = d /\ Forall (fun c => length c = sz) (chunks sz n d).
Proof.
  revert d; induction n as [|n IH]; intros d Hd; simpl in *.
  - destruct d; [auto | discriminate].
  - destruct (IH (skipn sz d)) as [Hc Hf].
    { rewrite length_skipn. lia. }
    split.
    + rewrite Hc. apply firstn_skipn.
    + constructor; [|exact Hf]. rewrite length_firstn. lia.
Qed.

Lemma expand_refl l (d : list num) : length d = numel_of l -> expand l l d = d.
Proof.
  revert d; induction l as [|f l IH]; intros d Hd; simpl in *; [reflexivity|].
  rewrite Nat.eqb_refl.
  destruct (chunks_concat (numel_of l) f d Hd) as [Hc Hf].
  rewrite <- Hc at 2. rewrite flat_map_concat_map. f_equal.
  rewrite <- (map_id (chunks (numel_of l) f d)) at 2.
  apply map_ext_in; intros c Hc'.
  apply IH. rewrite Forall_forall in Hf. now apply Hf.
Qed.

Lemma tsub_same_shape t o :
  same_shape t o ->
  tsub t o = OK (Tensor (shape t) (map2 rsub (data t) (data o))).
Proof.
  intros (Hs & Ht & Ho). unfold tsub. rewrite <- Hs, broadcast_shapes_refl.
  rewrite pad_shape_full, !expand_refl; [reflexivity | | assumption].
  unfold tensor_wf, numel in Ho. now rewrite Hs.
Qed.

Lemma mneg_view_col o : mneg (view_col o) = column (map ropp (data o)).
Proof.
  unfold mneg, mmap, view_col, column; simpl. f_equal.
  rewrite !map_map. reflexivity.
Qed.

Lemma cat_columns (ls : list (list num)) :
  ls <> [] -> cat (map column ls) = OK (column (concat ls)).
Proof.
  intros Hne. destruct ls as [|l ls]; [congruence|].
  unfold cat. cbn [map ncols column].
  replace (forallb _ _) with true.
  - unfold column. rewrite concat_map, !map_map. reflexivity.
  - symmetry. apply forallb_forall. intros m Hm.
    change (column l :: map column ls) with (map column (l :: ls)) in Hm.
    apply in_map_iff in Hm. destruct Hm as (x & <- & _). reflexivity.
Qed.

Lemma mapM_sub_same_shape ts os :
  Forall2 same_shape ts os ->
  mapM (fun to => let? d := tsub (fst to) (snd to) in OK (view_col d)) (combine ts os)
  = OK (map column (map2 (fun t o => map2 rsub (data t) (data o)) ts os)).
Proof.
  induction 1 as [|t o ts os Hto _ IH]; simpl; [reflexivity|].
  rewrite (tsub_same_shape t o Hto); simpl. rewrite IH; simpl. reflexivity.
Qed.

(** C8.  The residual is [target - output] for each pair of the output tuple,
    flattened to a column and concatenated in the order of the tuple; without
    targets it is [-output], flattened and concatenated in the same way; a
    single output follows the same rule. *)
Theorem residual_is_target_minus_output :
  forall (model : Model) (s : store) (inputs : value) (targets : option value),
    targets_match (forward model s inputs) targets ->
    _residual model s inputs targets
    = OK (residual_spec (forward model s inputs) targets).
Proof.
  intros model s inputs targets H. unfold _residual.
  destruct targets as [[t|ts]|], (forward model s inputs) as [o|os];
    simpl in H; try contradiction; simpl.
  - now rewrite (tsub_same_shape t o H).
  - destruct H as [H Hne]. rewrite (mapM_sub_same_shape ts os H); simpl.
    apply cat_columns. intros Hnil. apply Hne.
    destruct H; [reflexivity | discriminate].
  - now rewrite mneg_view_col.
  - rewrite <- cat_columns.
    + f_equal. rewrite map_map. apply map_ext; intros o. apply mneg_view_col.
    + destruct os; [congruence | discriminate].
Qed.

(** ** Failure of the residual *)

Lemma GN_step_residual_error opt inputs targets s e :
  _residual (gn_model opt) s inputs targets = inl e ->
  GN_step opt inputs targets s = (s, inl e).
Proof. intros H. unfold GN_step. rewrite bind_get, H. reflexivity. Qed.

Lemma LM_step_residual_error opt inputs targets s e :
  _residual (lm_model opt) s inputs targets = inl e ->
  LM_step opt inputs targets s = (s, inl e).
Proof. intros H. unfold LM_step. rewrite bind_get, H. reflexivity. Qed.

Lemma tsub_raises t o :
  (exists e, tsub t o = inl e) <-> broadcast_shapes (shape t) (shape o) = None.
Proof.
  unfold tsub. destruct (broadcast_shapes (shape t) (shape o)); split.
  - intros [e He]. discriminate.
  - discriminate.
  - reflexivity.
  - intros _. eexists. reflexivity.
Qed.

Lemma mapM_raises {A B} (f : A -> result B) l :
  (exists e, mapM f l = inl e) <-> Exists (fun a => exists e, f a = inl e) l.
Proof.
  induction l as [|a l IH]; simpl.
  - split; [intros [e He]; discriminate | intros H; inversion H].
  - destruct (f a) as [e|b] eqn:Hfa; simpl.
    + split; [intros _; left; eauto | intros _; eauto].
    + destruct (mapM f l) as [e|bs]; simpl.
      * split; [intros _; right; apply IH; eauto | intros _; eauto].
      * split; [intros [e He]; discriminate|].
        intros H. inversion H as [? ? [e He]|? ? H']; subst.
        -- congruence.
        -- apply IH in H'. destruct H' as [e He]. discriminate.
Qed.

Lemma mapM_length {A B} (f : A -> result B) l bs :
  mapM f l = inr bs -> length bs = length l.
Proof.
  revert bs; induction l as [|a l IH]; intros bs; simpl.
  - intros H. inversion H. reflexivity.
  - destruct (f a) as [e|b]; simpl; [discriminate|].
    destruct (mapM f l) as [e|bs']; simpl; [discriminate|].
    intros H. inversion H. simpl. f_equal. now apply IH.
Qed.

Lemma mapM_Forall {A B} (f : A -> result B) (P : B -> Prop) l bs :
  mapM f l = inr bs ->
  (forall a b, In a l -> f a = inr b -> P b) ->
  Forall P bs.
Proof.
  revert bs; induction l as [|a l IH]; intros bs; simpl.
  - intros H _. inversion H. constructor.
  - destruct (f a) as [e|b] eqn:Hfa; simpl; [discriminate|].
    destruct (mapM f l) as [e|bs']; simpl; [discriminate|].
    intros H HP. inversion H; subst. constructor.
    + apply (HP a); [now left | assumption].
    + apply IH; [reflexivity|]. intros a' b' Ha'. apply HP. now right.
Qed.

Lemma cat_all_columns cols :
  Forall (fun m => ncols m = 1%nat) cols -> cols <> [] ->
  exists E, cat cols = inr E.
Proof.
  intros Hc Hne. destruct cols as [|m cols]; [congruence|].
  unfold cat. replace (forallb _ _) with true; [eexists; reflexivity|].
  symmetry. apply forallb_forall. intros m' Hm'.
  rewrite Forall_forall in Hc.
  rewrite (Hc m' Hm'), (Hc m (or_introl eq_refl)). reflexivity.
Qed.

Lemma residual_tuple_raises model s inputs ts os :
  forward model s inputs = Tuple os ->
  (exists e, _residual model s inputs (Some (Tuple ts)) = inl e)
  <-> combine ts os = []
      \/ Exists (fun to => broadcast_shapes (shape (fst to)) (shape (snd to)) = None)
           (combine ts os).
Proof.
  intros Hf. unfold _residual. rewrite Hf. simpl.
  set (f := fun to : tensor * tensor => let? d := tsub (fst to) (snd to) in OK (view_col d)).
  assert (Hfr : forall to, (exists e, f to = inl e)
                           <-> broadcast_shapes (shape (fst to)) (shape (snd to)) = None).
  { intros to. rewrite <- tsub_raises. unfold f.
    destruct (tsub (fst to) (snd to)) as [e0|d0]; simpl; split; intros [e' He'];
      try discriminate; eauto. }
  destruct (mapM f (combine ts os)) as [e|cols] eqn:Hm; simpl.
  - split; [intros _ | intros _; eauto].
    right. assert (He : exists e, mapM f (combine ts os) = inl e) by eauto.
    apply mapM_raises in He. eapply Exists_impl; [|exact He].
    intros to. apply Hfr.
  - assert (Hcols : Forall (fun m => ncols m = 1%nat) cols).
    { apply (mapM_Forall f _ _ _ Hm). intros to b _. unfold f.
      destruct (tsub (fst to) (snd to)); simpl; [discriminate|].
      intros H. inversion H. reflexivity. }
    pose proof (mapM_length f _ _ Hm) as Hlen.
    split.
    + intros [e He]. left. destruct cols as [|m cols].
      * destruct (combine ts os); [reflexivity | discriminate].
      * destruct (cat_all_columns (m :: cols) Hcols) as [E HE]; [discriminate|].
        congruence.
    + intros [Hnil | Hex].
      * rewrite Hnil in Hlen. destruct cols; [|discriminate].
        eexists. reflexivity.
      * exfalso. eapply Exists_impl in Hex; [|intros to; apply Hfr].
        apply mapM_raises in Hex. destruct Hex as [e He]. congruence.
Qed.

Lemma residual_single_raises model s inputs t o :
  forward model s inputs = Single o ->
  (exists e, _residual model s inputs (Some (Single t)) = inl e)
  <-> broadcast_shapes (shape t) (shape o) = None.
Proof.
  intros Hf. unfold _residual. rewrite Hf. rewrite <- tsub_raises.
  destruct (tsub t o) as [e0|d0]; simpl; split; intros [e' He'];
    try discriminate; eauto.
Qed.

(** C3 (as amended).  A [step] whose first residual evaluation raises fails with
    that exception and leaves every parameter as it was.  For a tuple of
    outputs and a tuple of targets the residual raises exactly when the pairs
    of [zip(targets, outputs)] are none, or when the shapes of some pair do not
    broadcast together: a disagreement of arity alone is not an error.  For a
    single output and a single target it raises exactly when their shapes do
    not broadcast together. *)
Theorem residual_failure_leaves_parameters :
  forall (gn : GaussNewton) (lm : LevenbergMarquardt) (inputs : value)
         (targets : option value) (s : store),
    (forall e, _residual (gn_model gn) s inputs targets = inl e ->
               GN_step gn inputs targets s = (s, inl e)) /\
    (forall e, _residual (lm_model lm) s inputs targets = inl e ->
               LM_step lm inputs targets s = (s, inl e)) /\
    (forall model ts os,
        forward model s inputs = Tuple os ->
        ((exists e, _residual model s inputs (Some (Tuple ts)) = inl e)
         <-> combine ts os = []
             \/ Exists (fun to => broadcast_shapes (shape (fst to)) (shape (snd to)) = None)
                  (combine ts os))) /\
    (forall model t o,
        forward model s inputs = Single o ->
        ((exists e, _residual model s inputs (Some (Single t)) = inl e)
         <-> broadcast_shapes (shape t) (shape o) = None)).
Proof.
  intros gn lm inputs targets s. split; [|split; [|split]].
  - intros e. apply GN_step_residual_error.
  - intros e. apply LM_step_residual_error.
  - intros model ts os. apply residual_tuple_raises.
  - intros model t o. apply residual_single_raises.
Qed.

(** ** Stores along a step *)

Section Preservation.

Variable R : store -> store -> Prop.
Hypothesis R_refl : forall s, R s s.
Hypothesis R_trans : forall s1 s2 s3, R s1 s2 -> R s2 s3 -> R s1 s3.

Lemma preserves_ret {A} (a : A) : preserves R (ret a).
Proof. intros s. apply R_refl. Qed.

Lemma preserves_lift {A} (c : result A) : preserves R (lift c).
Proof. intros s. apply R_refl. Qed.

Lemma preserves_get : preserves R get.
Proof. intros s. apply R_refl. Qed.

Lemma preserves_bind {A B} (c : M A) (k : A -> M B) :
  preserves R c -> (forall a, preserves R (k a)) -> preserves R (bind c k).
Proof.
  intros Hc Hk s. unfold bind. specialize (Hc s).
  destruct (c s) as [s' [e|a]]; simpl in *; [exact Hc|].
  eapply R_trans; [exact Hc | apply Hk].
Qed.

Lemma preserves_for_each {A} (body : A -> M unit) l :
  (forall a, In a l -> preserves R (body a)) -> preserves R (for_each body l).
Proof.
  induction l as [|a l IH]; intros H; simpl.
  - apply preserves_ret.
  - apply preserves_bind; [apply H; now left|].
    intros _. apply IH. intros a' Ha'. apply H. now right.
Qed.

End Preservation.

Lemma param_evolves_refl q : param_evolves q q.
Proof. repeat split. Qed.

Lemma evolves_refl s : evolves s s.
Proof. induction s; constructor; auto using param_evolves_refl. Qed.

Lemma param_evolves_trans q1 q2 q3 :
  param_evolves q1 q2 -> param_evolves q2 q3 -> param_evolves q1 q3.
Proof.
  intros (Hg & Hs & Hf) (Hg' & Hs' & Hf'). repeat split; try congruence.
  intros H. rewrite (Hf H) in *. now apply Hf'.
Qed.

Lemma evolves_trans s1 s2 s3 : evolves s1 s2 -> evolves s2 s3 -> evolves s1 s3.
Proof.
  intros H; revert s3.
  induction H as [|q1 q2 s1 s2 Hq _ IH]; intros s3 H'; inversion H'; subst;
    constructor.
  - eapply param_evolves_trans; eassumption.
  - now apply IH.
Qed.

Lemma set_param_evolves s p q q' :
  nth_error s p = Some q -> param_evolves q q' -> evolves s (set_param p q' s).
Proof.
  revert p; induction s as [|x s IH]; intros p Hp Hq; destruct p; simpl in *;
    try discriminate.
  - inversion Hp; subst. constructor; [assumption | apply evolves_refl].
  - constructor; [apply param_evolves_refl | now apply IH].
Qed.

Lemma set_param_same s p q : nth_error s p = Some q -> set_param p q s = s.
Proof.
  revert p; induction s as [|x s IH]; intros p Hp; destruct p; simpl in *;
    try discriminate.
  - now inversion Hp.
  - f_equal. now apply IH.
Qed.

Lemma preserves_apply_updates params D : preserves evolves (apply_updates params D).
Proof.
  revert D; induction params as [|p params IH]; intros D s; destruct D as [|d D];
    simpl; try apply evolves_refl.
  rewrite bind_get.
  destruct (nth_error s p) as [q|] eqn:Hp; [|apply IH].
  destruct (requires_grad q) eqn:Hg; [|apply IH].
  revert s Hp.
  change (forall s, nth_error s p = Some q ->
            evolves s (fst (bind (lift (view d (shape (p_tensor q))))
                              (fun v => bind (add_ p v)
                                          (fun _ => apply_updates params D)) s))).
  intros s Hp. unfold bind at 1, lift.
  destruct (view d (shape (p_tensor q))) as [e|v]; simpl; [apply evolves_refl|].
  unfold bind, add_. rewrite Hp.
  eapply evolves_trans; [|apply IH].
  apply (set_param_evolves s p q); [assumption|].
  repeat split; simpl. congruence.
Qed.

Lemma preserves_gn_group opt inputs E K pg :
  preserves evolves (gn_group opt inputs E K pg).
Proof.
  unfold gn_group.
  apply (preserves_bind evolves evolves_trans); [apply preserves_get, evolves_refl|].
  intros s'.
  apply (preserves_bind evolves evolves_trans); [apply preserves_lift, evolves_refl|].
  intros D.
  apply (preserves_bind evolves evolves_trans); [apply preserves_lift, evolves_refl|].
  intros Ds. apply preserves_apply_updates.
Qed.

Lemma preserves_lm_group opt inputs E K pg :
  preserves evolves (lm_group opt inputs E K pg).
Proof.
  unfold lm_group.
  apply (preserves_bind evolves evolves_trans); [apply preserves_get, evolves_refl|].
  intros s'.
  apply (preserves_bind evolves evolves_trans); [apply preserves_lift, evolves_refl|].
  intros D.
  apply (preserves_bind evolves evolves_trans); [apply preserves_lift, evolves_refl|].
  intros Ds. apply preserves_apply_updates.
Qed.

Lemma preserves_loss_of (R : store -> store -> Prop) kernel model inputs targets :
  (forall s, R s s) -> preserves R (loss_of kernel model inputs targets).
Proof.
  intros HR s. unfold loss_of. rewrite bind_get. unfold bind, lift, ret.
  destruct (_residual model s inputs targets); simpl; apply HR.
Qed.

Lemma preserves_GN_step opt inputs targets :
  preserves evolves (GN_step opt inputs targets).
Proof.
  unfold GN_step.
  apply (preserves_bind evolves evolves_trans); [apply preserves_get, evolves_refl|].
  intros s'.
  apply (preserves_bind evolves evolves_trans); [apply preserves_lift, evolves_refl|].
  intros E.
  apply (preserves_bind evolves evolves_trans).
  - apply (preserves_for_each evolves evolves_refl evolves_trans).
    intros pg _. apply preserves_gn_group.
  - intros _. apply preserves_loss_of, evolves_refl.
Qed.

Lemma preserves_LM_step opt inputs targets :
  preserves evolves (LM_step opt inputs targets).
Proof.
  unfold LM_step.
  apply (preserves_bind evolves evolves_trans); [apply preserves_get, evolves_refl|].
  intros s'.
  apply (preserves_bind evolves evolves_trans); [apply preserves_lift, evolves_refl|].
  intros E.
  apply (preserves_bind evolves evolves_trans).
  - apply (preserves_for_each evolves evolves_refl evolves_trans).
    intros pg _. apply preserves_lm_group.
  - intros _. apply preserves_loss_of, evolves_refl.
Qed.

Lemma evolves_frozen s s' p q :
  evolves s s' -> nth_error s p = Some q -> requires_grad q = false ->
  nth_error s' p = Some q.
Proof.
  intros H; revert p. induction H as [|x x' s s' Hx _ IH]; intros p Hp Hg;
    destruct p; simpl in *; try discriminate.
  - inversion Hp; subst. destruct Hx as (_ & _ & Hf). now rewrite (Hf Hg).
  - now apply IH.
Qed.

(** X3.  Every frozen parameter is left as it is by [step], whether the call
    returns or raises, in every group and in every order of the parameters. *)
Lemma step_leaves_frozen_parameters gn lm inputs targets s p q :
  nth_error s p = Some q -> requires_grad q = false ->
  nth_error (fst (GN_step gn inputs targets s)) p = Some q /\
  nth_error (fst (LM_step lm inputs targets s)) p = Some q.
Proof.
  intros Hp Hg. split.
  - exact (evolves_frozen _ _ p q (preserves_GN_step gn inputs targets s) Hp Hg).
  - exact (evolves_frozen _ _ p q (preserves_LM_step lm inputs targets s) Hp Hg).
Qed.

(** ** A group of trainable parameters *)

Lemma nth_error_set_param_same s p q q0 :
  nth_error s p = Some q0 -> nth_error (set_param p q s) p = Some q.
Proof.
  revert p; induction s as [|x s IH]; intros p Hp; destruct p; simpl in *;
    try discriminate; [reflexivity | now apply IH].
Qed.

Lemma nth_error_set_param_other s p p' q :
  p <> p' -> nth_error (set_param p q s) p' = nth_error s p'.
Proof.
  revert p p'; induction s as [|x s IH]; intros p p' Hne; destruct p, p'; simpl;
    try reflexivity; try congruence.
  apply IH. congruence.
Qed.

Lemma Forall2_impl_in {A B} (P Q : A -> B -> Prop) l l' :
  (forall a b, In a l -> P a b -> Q a b) -> Forall2 P l l' -> Forall2 Q l l'.
Proof.
  intros H HP. induction HP as [|a b l l' Hab _ IH]; constructor.
  - apply H; [now left | assumption].
  - apply IH. intros a' b' Ha'. apply H. now right.
Qed.

(** When every parameter of the group is trainable, the slices reach the
    parameters in order: each parameter receives its own slice, and the other
    parameters of the store are left as they are. *)
Lemma apply_updates_all_trainable params D :
  forall s,
    NoDup params ->
    Forall2 (fun p d => exists q, nth_error s p = Some q /\ requires_grad q = true
                                  /\ numel (p_tensor q) = (nrows d * ncols d)%nat)
            params D ->
    exists s',
      apply_updates params D s = (s', OK tt) /\
      Forall2 (fun p d => exists q, nth_error s p = Some q
                                    /\ nth_error s' p = Some (updated q d))
              params D /\
      (forall p, ~ In p params -> nth_error s' p = nth_error s p).
Proof.
  revert D; induction params as [|p params IH]; intros D s Hnd HF;
    inversion HF as [|? d ? D' (q & Hp & Hg & Hn) HF']; subst; simpl.
  - exists s. split; [reflexivity | split; [constructor | reflexivity]].
  - inversion Hnd as [|? ? Hnotin Hnd']; subst.
    rewrite bind_get, Hp, Hg. unfold bind at 1, lift, view.
    unfold numel in Hn. rewrite Hn, Nat.eqb_refl. simpl.
    unfold bind at 1, add_. rewrite Hp. simpl.
    fold (updated q d).
    set (s1 := set_param p (updated q d) s).
    assert (Hother : forall p', p' <> p -> nth_error s1 p' = nth_error s p').
    { intros p' Hne. apply nth_error_set_param_other. congruence. }
    destruct (IH D' s1 Hnd') as (s' & Hrun & Hupd & Hrest).
    { eapply Forall2_impl_in; [|exact HF'].
      intros p' d' Hin (q' & Hp' & Hq'). exists q'. split; [|exact Hq'].
      rewrite Hother; [assumption|]. intros ->. contradiction. }
    exists s'. split; [exact Hrun | split].
    + constructor.
      * exists q. split; [assumption|]. rewrite (Hrest p Hnotin).
        unfold s1. eapply nth_error_set_param_same; eassumption.
      * eapply Forall2_impl_in; [|exact Hupd].
        intros p' d' Hin (q' & Hp' & Hq'). exists q'. split; [|exact Hq'].
        rewrite <- Hother; [assumption|]. intros ->. contradiction.
    + intros p' Hnin. rewrite Hrest by (intros H; apply Hnin; now right).
      apply Hother. intros ->. apply Hnin. now left.
Qed.

(** ** Zero residual *)

Lemma map_const_seq {A} (x : A) a n : map (fun _ => x) (seq a n) = repeat x n.
Proof. revert a; induction n; intros a; simpl; [reflexivity | now rewrite IHn]. Qed.

Lemma is_zero_mk_matrix r c f :
  (forall i j, (i < r)%nat -> (j < c)%nat -> f i j = rO) -> is_zero (mk_matrix r c f).
Proof.
  intros Hf. rewrite (mk_matrix_ext r c f (fun _ _ => rO) Hf).
  unfold is_zero, mk_matrix; simpl. apply Forall_forall. intros row Hrow.
  apply in_map_iff in Hrow. destruct Hrow as (i & <- & _). apply map_const_seq.
Qed.

Lemma entry_is_zero m i j : is_zero m -> entry m i j = rO.
Proof.
  intros Hz. unfold entry.
  destruct (nth_in_or_default i (mrows m) []) as [Hin | ->].
  - unfold is_zero in Hz. rewrite Forall_forall in Hz. rewrite (Hz _ Hin).
    apply nth_repeat.
  - now destruct j.
Qed.

Lemma matmul_zero_r a b D : is_zero b -> matmul a b = inr D -> is_zero D.
Proof.
  intros Hz. unfold matmul. destruct (ncols a =? nrows b)%nat; [|discriminate].
  intros H. inversion H. apply is_zero_mk_matrix. intros i j _ _.
  apply sum_upto_zero. intros k _. rewrite (entry_is_zero b k j Hz). ring.
Qed.

Lemma weighted_gradient_zero K J E b :
  is_zero E -> weighted_gradient K J E = inr b -> is_zero b.
Proof.
  intros Hz. unfold weighted_gradient.
  destruct (bmul (transpose K) (transpose J)) as [e|W]; simpl; [discriminate|].
  now apply matmul_zero_r.
Qed.

Lemma gn_solve_zero fast pg K J E D :
  zero_solution_laws -> is_zero E -> gn_solve fast pg K J E = inr D -> is_zero D.
Proof.
  intros [Hl _] Hz. unfold gn_solve. rewrite matmul_transpose_self. simpl.
  destruct fast.
  - destruct (weighted_gradient K J E) as [e|b] eqn:Hb; simpl; [discriminate|].
    intros H. eapply Hl; [exact H|]. eapply weighted_gradient_zero; eassumption.
  - destruct (pinverse (gram J)) as [e|P]; simpl; [discriminate|].
    destruct (weighted_gradient K J E) as [e|b] eqn:Hb; simpl; [discriminate|].
    apply matmul_zero_r. eapply weighted_gradient_zero; eassumption.
Qed.

Lemma lm_solve_zero pg K J E D :
  zero_solution_laws -> is_zero E -> lm_solve pg K J E = inr D -> is_zero D.
Proof.
  intros [_ Hc] Hz. unfold lm_solve. rewrite lm_system_normal. simpl.
  destruct (weighted_gradient K J E) as [e|b] eqn:Hb; simpl; [discriminate|].
  destruct (cholesky (lm_normal_matrix pg J)) as [e|L]; simpl; [discriminate|].
  intros H. eapply Hc; [exact H|]. eapply weighted_gradient_zero; eassumption.
Qed.

Lemma in_firstn {A} (x : A) n l : In x (firstn n l) -> In x l.
Proof.
  revert l; induction n as [|n IH]; intros [|y l]; simpl; try tauto.
  intros [->|H]; [now left | right; now apply IH].
Qed.

Lemma in_skipn {A} (x : A) n l : In x (skipn n l) -> In x l.
Proof.
  revert l; induction n as [|n IH]; intros [|y l]; simpl; try tauto.
  intros H. right. now apply IH.
Qed.

Lemma split_rows_zero c rs sizes :
  Forall (fun r => r = repeat rO c) rs ->
  Forall is_zero (split_rows c rs sizes).
Proof.
  revert rs; induction sizes as [|n sizes IH]; intros rs Hrs; simpl; constructor.
  - unfold is_zero; simpl. rewrite Forall_forall in *. intros r Hr.
    apply Hrs. eapply in_firstn; eassumption.
  - apply IH. rewrite Forall_forall in *. intros r Hr.
    apply Hrs. eapply in_skipn; eassumption.
Qed.

Lemma split_zero D sizes Ds : is_zero D -> split D sizes = inr Ds -> Forall is_zero Ds.
Proof.
  intros Hz. unfold split. destruct (_ =? _)%nat; [|discriminate].
  intros H. inversion H. now apply split_rows_zero.
Qed.

Lemma concat_zero_rows (rs : list (list num)) c :
  Forall (fun r => r = repeat rO c) rs -> concat rs = repeat rO (length rs * c).
Proof.
  induction 1 as [|r rs Hr _ IH]; simpl; [reflexivity|].
  now rewrite Hr, IH, repeat_app.
Qed.

Lemma map2_add_zero (d : list num) : map2 radd d (repeat rO (length d)) = d.
Proof.
  induction d as [|x d IH]; simpl; [reflexivity|]. rewrite IH. f_equal. ring.
Qed.

Lemma view_zero d sh v :
  is_zero d -> view d sh = inr v -> v = Tensor sh (repeat rO (numel_of sh)).
Proof.
  intros Hz. unfold view.
  destruct (Nat.eqb_spec (numel_of sh) (nrows d * ncols d)) as [Hn|]; [|discriminate].
  intros H. inversion H. f_equal.
  rewrite (concat_zero_rows (mrows d) (ncols d) Hz). now rewrite Hn.
Qed.

Lemma unchanged_refl s : unchanged s s.
Proof. intros _. reflexivity. Qed.

Lemma unchanged_trans s1 s2 s3 : unchanged s1 s2 -> unchanged s2 s3 -> unchanged s1 s3.
Proof.
  intros H12 H23 Hwf. pose proof (H12 Hwf) as ->. now apply H23.
Qed.

Lemma add_zero_unchanged s p q :
  nth_error s p = Some q -> requires_grad q = true ->
  unchanged s (fst (add_ p (Tensor (shape (p_tensor q))
                              (repeat rO (numel_of (shape (p_tensor q))))) s)).
Proof.
  intros Hp Hg Hwf. unfold add_. rewrite Hp; simpl.
  apply set_param_same. rewrite Hp. f_equal.
  unfold store_wf in Hwf. rewrite Forall_forall in Hwf.
  pose proof (Hwf q (nth_error_In _ _ Hp)) as Hq.
  unfold tensor_wf, numel in Hq. rewrite <- Hq, map2_add_zero.
  destruct q as [g [sh d]]; reflexivity.
Qed.

Lemma apply_updates_zero params D :
  Forall is_zero D -> preserves unchanged (apply_updates params D).
Proof.
  revert D; induction params as [|p params IH]; intros D HD s; destruct D as [|d D];
    simpl; try apply unchanged_refl.
  inversion HD as [|? ? Hd HD']; subst.
  rewrite bind_get.
  destruct (nth_error s p) as [q|] eqn:Hp; [|now apply IH].
  destruct (requires_grad q) eqn:Hg; [|now apply IH].
  unfold bind at 1, lift.
  destruct (view d (shape (p_tensor q))) as [e|v] eqn:Hv; simpl;
    [apply unchanged_refl|].
  rewrite (view_zero d _ v Hd Hv).
  unfold bind.
  pose proof (add_zero_unchanged s p q Hp Hg) as Hadd.
  destruct (add_ p _ s) as [s' [e|[]]] eqn:Hs'; simpl in *; [exact Hadd|].
  eapply unchanged_trans; [exact Hadd | now apply IH].
Qed.

Lemma gn_group_zero opt inputs E K pg :
  zero_solution_laws -> is_zero E ->
  preserves unchanged (gn_group opt inputs E K pg).
Proof.
  intros Hlaws Hz s. unfold gn_group. rewrite bind_get. unfold bind at 1, lift.
  destruct (gn_solve _ _ _ _ _) as [e|D] eqn:HD; simpl; [apply unchanged_refl|].
  unfold bind, lift.
  destruct (split D _) as [e|Ds] eqn:HDs; simpl; [apply unchanged_refl|].
  apply apply_updates_zero. eapply split_zero; [|exact HDs].
  eapply gn_solve_zero; eassumption.
Qed.

Lemma lm_group_zero opt inputs E K pg :
  zero_solution_laws -> is_zero E ->
  preserves unchanged (lm_group opt inputs E K pg).
Proof.
  intros Hlaws Hz s. unfold lm_group. rewrite bind_get. unfold bind at 1, lift.
  destruct (lm_solve _ _ _ _) as [e|D] eqn:HD; simpl; [apply unchanged_refl|].
  unfold bind, lift.
  destruct (split D _) as [e|Ds] eqn:HDs; simpl; [apply unchanged_refl|].
  apply apply_updates_zero. eapply split_zero; [|exact HDs].
  eapply lm_solve_zero; eassumption.
Qed.

Lemma loop_then_loss {A} (body : A -> M unit) groups kernel model inputs targets s E :
  preserves unchanged (for_each body groups) ->
  store_wf s ->
  _residual model s inputs targets = inr E ->
  exists r, bind (for_each body groups)
                 (fun _ => loss_of kernel model inputs targets) s = (s, r)
            /\ forall l, r = inr l -> l = msum (kernel (msquare E)).
Proof.
  intros Hloop Hwf HE. unfold bind at 1. specialize (Hloop s).
  destruct (for_each body groups s) as [s' [e|[]]]; simpl in Hloop;
    rewrite (Hloop Hwf).
  - exists (inl e). split; [reflexivity | discriminate].
  - unfold loss_of. rewrite bind_get. unfold bind, lift, ret. rewrite HE.
    eexists. split; [reflexivity|]. intros l Hl. now inversion Hl.
Qed.


(** ** The loop over the parameter groups *)

Lemma for_each_app {A} (body : A -> M unit) pre l s :
  for_each body (pre ++ l) s
  = match for_each body pre s with
    | (s1, inl e) => (s1, inl e)
    | (s1, inr _) => for_each body l s1
    end.
Proof.
  revert s; induction pre as [|a pre IH]; intros s; simpl; [reflexivity|].
  unfold bind. destruct (body a s) as [s' [e|[]]]; [reflexivity | apply IH].
Qed.

Lemma gn_group_unfold opt inputs E K pg s :
  gn_group opt inputs E K pg s
  = match gn_solve (fast opt) pg K (modjac (gn_model opt) s inputs) E with
    | inl e => (s, inl e)
    | inr D => bind (lift (split D (trainable_numels s (gn_params pg))))
                    (apply_updates (gn_params pg)) s
    end.
Proof.
  unfold gn_group. rewrite bind_get. unfold bind at 1, lift.
  destruct (gn_solve _ _ _ _ _); reflexivity.
Qed.

Lemma lm_group_unfold opt inputs E K pg s :
  lm_group opt inputs E K pg s
  = match lm_solve pg K (modjac (lm_model opt) s inputs) E with
    | inl e => (s, inl e)
    | inr D => bind (lift (split D (trainable_numels s (lm_params pg))))
                    (apply_updates (lm_params pg)) s
    end.
Proof.
  unfold lm_group. rewrite bind_get. unfold bind at 1, lift.
  destruct (lm_solve _ _ _ _); reflexivity.
Qed.

(** X4.  A failure of the linear solver of a group is the failure of [step],
    raised with the store as it was when the loop reached that group: the
    updates of the groups before it stay, and the group itself has changed no
    parameter. *)
Lemma solver_failure_precedes_update :
  forall (gn : GaussNewton) (lm : LevenbergMarquardt) (inputs : value)
         (targets : option value) (s0 s1 : store) (E : matrix) (e : exn),
    (forall pre pg rest,
        gn_param_groups gn = pre ++ pg :: rest ->
        _residual (gn_model gn) s0 inputs targets = inr E ->
        let K := jacobian (fun x => msum (gn_kernel gn x)) (msquare E) in
        for_each (gn_group gn inputs E K) pre s0 = (s1, inr tt) ->
        gn_solve (fast gn) pg K (modjac (gn_model gn) s1 inputs) E = inl e ->
        GN_step gn inputs targets s0 = (s1, inl e)) /\
    (forall pre pg rest,
        lm_param_groups lm = pre ++ pg :: rest ->
        _residual (lm_model lm) s0 inputs targets = inr E ->
        let K := jacobian (fun x => msum (lm_kernel lm x)) (msquare E) in
        for_each (lm_group lm inputs E K) pre s0 = (s1, inr tt) ->
        lm_solve pg K (modjac (lm_model lm) s1 inputs) E = inl e ->
        LM_step lm inputs targets s0 = (s1, inl e)).
Proof.
  intros gn lm inputs targets s0 s1 E e. split;
    intros pre pg rest Hg HE K Hpre Hsolve.
  - unfold GN_step. rewrite bind_get. unfold bind at 1, lift. rewrite HE.
    fold K. rewrite Hg. unfold bind at 1. rewrite for_each_app, Hpre. simpl.
    unfold bind at 1. rewrite gn_group_unfold, Hsolve. reflexivity.
  - unfold LM_step. rewrite bind_get. unfold bind at 1, lift. rewrite HE.
    fold K. rewrite Hg. unfold bind at 1. rewrite for_each_app, Hpre. simpl.
    unfold bind at 1. rewrite lm_group_unfold, Hsolve. reflexivity.
Qed.

(** C10.  Within one [step] of either optimizer the residual and the kernel
    weights are computed once, at the parameters the call starts from, and are
    the ones every group solves with, while the Jacobian of a group is computed
    when the loop reaches it: the solve of a later group takes the Jacobian at
    the parameters left by the groups before it, with the residual and weights
    from before any update. *)
Theorem residual_and_weights_computed_once :
  forall (gn : GaussNewton) (lm : LevenbergMarquardt) (inputs : value)
         (targets : option value) (s0 s1 : store) (E : matrix),
    (forall pre pg rest,
        gn_param_groups gn = pre ++ pg :: rest ->
        _residual (gn_model gn) s0 inputs targets = inr E ->
        let K := jacobian (fun x => msum (gn_kernel gn x)) (msquare E) in
        for_each (gn_group gn inputs E K) pre s0 = (s1, inr tt) ->
        GN_step gn inputs targets s0
        = match gn_solve (fast gn) pg K (modjac (gn_model gn) s1 inputs) E with
          | inl e => (s1, inl e)
          | inr D =>
              bind (bind (lift (split D (trainable_numels s1 (gn_params pg))))
                         (apply_updates (gn_params pg)))
                   (fun _ => bind (for_each (gn_group gn inputs E K) rest)
                               (fun _ => loss_of (gn_kernel gn) (gn_model gn)
                                                 inputs targets)) s1
          end) /\
    (forall pre pg rest,
        lm_param_groups lm = pre ++ pg :: rest ->
        _residual (lm_model lm) s0 inputs targets = inr E ->
        let K := jacobian (fun x => msum (lm_kernel lm x)) (msquare E) in
        for_each (lm_group lm inputs E K) pre s0 = (s1, inr tt) ->
        LM_step lm inputs targets s0
        = match lm_solve pg K (modjac (lm_model lm) s1 inputs) E with
          | inl e => (s1, inl e)
          | inr D =>
              bind (bind (lift (split D (trainable_numels s1 (lm_params pg))))
                         (apply_updates (lm_params pg)))
                   (fun _ => bind (for_each (lm_group lm inputs E K) rest)
                               (fun _ => loss_of (lm_kernel lm) (lm_model lm)
                                                 inputs targets)) s1
          end).
Proof.
  intros gn lm inputs targets s0 s1 E. split; intros pre pg rest Hg HE K Hpre.
  - unfold GN_step. rewrite bind_get. unfold bind at 1, lift. rewrite HE.
    fold K. rewrite Hg. unfold bind at 1. rewrite for_each_app, Hpre. simpl.
    unfold bind at 1. rewrite gn_group_unfold.
    destruct (gn_solve _ _ _ _ _) as [e|D]; [reflexivity|].
    unfold bind, lift. destruct (split D _) as [e|Ds]; [reflexivity|].
    destruct (apply_updates _ Ds s1) as [s'' [e|[]]]; reflexivity.
  - unfold LM_step. rewrite bind_get. unfold bind at 1, lift. rewrite HE.
    fold K. rewrite Hg. unfold bind at 1. rewrite for_each_app, Hpre. simpl.
    unfold bind at 1. rewrite lm_group_unfold.
    destruct (lm_solve _ _ _ _) as [e|D]; [reflexivity|].
    unfold bind, lift. destruct (split D _) as [e|Ds]; [reflexivity|].
    destruct (apply_updates _ Ds s1) as [s'' [e|[]]]; reflexivity.
Qed.

(** ** The Jacobian of a group *)

Lemma split_wrong_size D sizes :
  nrows D <> total sizes -> exists e, split D sizes = inl e.
Proof.
  intros H. unfold split. fold (total sizes).
  destruct (Nat.eqb_spec (total sizes) (nrows D)); [congruence|].
  eexists. reflexivity.
Qed.

(** C2 (as amended).  In every [step], the Jacobian a group solves with is
    [modjac] of the model, its current parameters and the inputs: the group
    is no argument of it, so every group of the optimizer gets the columns the
    model gives and not columns of its own; when the update solved from it has
    not as many rows as the group has trainable entries, splitting it raises
    and the group changes no parameter. *)
Theorem jacobian_is_of_the_model :
  forall (gn : GaussNewton) (lm : LevenbergMarquardt) (inputs : value)
         (E K : matrix) (s : store) (gpg : GNGroup) (lpg : LMGroup),
    let Jg := modjac (gn_model gn) s inputs in
    let Jl := modjac (lm_model lm) s inputs in
    gn_group gn inputs E K gpg s
    = match gn_solve (fast gn) gpg K Jg E with
      | inl e => (s, inl e)
      | inr D => bind (lift (split D (trainable_numels s (gn_params gpg))))
                      (apply_updates (gn_params gpg)) s
      end /\
    lm_group lm inputs E K lpg s
    = match lm_solve lpg K Jl E with
      | inl e => (s, inl e)
      | inr D => bind (lift (split D (trainable_numels s (lm_params lpg))))
                      (apply_updates (lm_params lpg)) s
      end /\
    (forall D, gn_solve (fast gn) gpg K Jg E = inr D ->
               nrows D <> total (trainable_numels s (gn_params gpg)) ->
               exists e, gn_group gn inputs E K gpg s = (s, inl e)) /\
    (forall D, lm_solve lpg K Jl E = inr D ->
               nrows D <> total (trainable_numels s (lm_params lpg)) ->
               exists e, lm_group lm inputs E K lpg s = (s, inl e)).
Proof.
  intros gn lm inputs E K s gpg lpg Jg Jl.
  split; [apply gn_group_unfold | split; [apply lm_group_unfold | split]].
  - intros D HD Hn. rewrite gn_group_unfold. fold Jg. rewrite HD.
    destruct (split_wrong_size D _ Hn) as [e He].
    exists e. unfold bind, lift. now rewrite He.
  - intros D HD Hn. rewrite lm_group_unfold. fold Jl. rewrite HD.
    destruct (split_wrong_size D _ Hn) as [e He].
    exists e. unfold bind, lift. now rewrite He.
Qed.

End Facts.

(** * The optimizers on concrete models *)

Section Runs.

#[local] Existing Instance fd_autograd.
#[local] Existing Instance diag_linalg.

Local Open Scope Z_scope.

(** ** The exact diagonal solver maps a zero right-hand side to zero *)

Lemma exact_div_zero d y : exact_div 0 d = inr y -> y = 0.
Proof.
  unfold exact_div. destruct (d =? 0); [intros H; now inversion H|].
  rewrite Zmod_0_l. simpl. rewrite Zdiv_0_l. intros H; now inversion H.
Qed.

Lemma mapM_zero {A} (f : A -> result Z) l ys :
  mapM f l = inr ys -> (forall a y, f a = inr y -> y = 0) ->
  ys = repeat 0 (length l).
Proof.
  revert ys; induction l as [|a l IH]; intros ys; simpl.
  - intros H _. now inversion H.
  - destruct (f a) as [e|y] eqn:Hfa; simpl; [discriminate|].
    destruct (mapM f l) as [e|ys'] eqn:Hl; simpl; [discriminate|].
    intros H Hf. inversion H; subst. f_equal; [eapply Hf; eassumption|].
    now apply IH.
Qed.

Lemma mk_matrixM_zero r c f X :
  mk_matrixM r c f = inr X -> (forall i j y, f i j = inr y -> y = 0) -> is_zero X.
Proof.
  unfold mk_matrixM.
  destruct (mapM _ (seq 0 r)) as [e|rs] eqn:Hrs; simpl; [discriminate|].
  intros H Hf. inversion H; subst. unfold is_zero; simpl.
  apply (mapM_Forall _ _ _ _ Hrs). intros i row _ Hrow.
  rewrite (mapM_zero (f i) (seq 0 c) row Hrow (Hf i)). now rewrite length_seq.
Qed.

Lemma diag_linalg_zero_solution_laws : zero_solution_laws.
Proof.
  split.
  - intros A b rc dr X. simpl. unfold diag_lstsq.
    destruct (is_diagonal A && _)%bool; [|discriminate].
    intros H Hz. apply (mk_matrixM_zero _ _ _ _ H). intros i j y.
    change (@entry Z_scalar b i j) with (entry b i j).
    rewrite (entry_is_zero b i j Hz). apply exact_div_zero.
  - intros b L X. simpl. unfold diag_cholesky_solve.
    destruct (is_diagonal L && _)%bool; [|discriminate].
    intros H Hz. apply (mk_matrixM_zero _ _ _ _ H). intros i j y.
    destruct (entry L i i =? 0); [discriminate|].
    rewrite (entry_is_zero b i j Hz). apply exact_div_zero.
Qed.

(** ** Construction *)

(** C5 (the code at damping 0 and -1).  [LevenbergMarquardt(model, damping)]
    with a damping that is not positive raises before any parameter group is
    registered, but what it raises is the [AssertionError] of the [assert],
    whose argument is the [ValueError]: it is no [ValueError]. *)
Theorem LM_init_raises_AssertionError :
  LM_init identity_model 0 None 0 1
  = Error (AssertionError (ValueError "Invalid damping factor: {}")) /\
  LM_init identity_model (-1) None 0 1
  = Error (AssertionError (ValueError "Invalid damping factor: {}")) /\
  is_ValueError (AssertionError (ValueError "Invalid damping factor: {}")) = false.
Proof. repeat split. Qed.

(** ** Frozen parameters in a group *)

(** C1 (the code on a frozen parameter before a trainable one).  The update
    solved for the trainable parameter is 2 in GN and 1 in LM, the group has
    one trainable entry, and [step] returns having changed no parameter: the
    slice is paired with the frozen parameter and dropped with it. *)
Theorem frozen_before_trainable_loses_update :
  trainable_numels frozen_first_store [0%nat; 1%nat] = [1%nat] /\
  _residual frozen_first_model frozen_first_store no_input
    (Some (Single (scalar_tensor 7))) = OK (column [2]) /\
  gn_solve false {| gn_params := [0%nat; 1%nat]; rcond := None; driver := None |}
    (jacobian (fun x => msum x) (msquare (column [2])))
    (modjac frozen_first_model frozen_first_store no_input) (column [2])
  = OK (column [2]) /\
  GN_step frozen_first_GN no_input (Some (Single (scalar_tensor 7))) frozen_first_store
  = (frozen_first_store, OK 4) /\
  lm_solve {| lm_params := [0%nat; 1%nat]; damping := 3; lm_min := 0; lm_max := 1 |}
    (jacobian (fun x => msum x) (msquare (column [4])))
    (modjac frozen_first_model frozen_first_store no_input) (column [4])
  = OK (column [1]) /\
  LM_step frozen_first_LM no_input (Some (Single (scalar_tensor 9))) frozen_first_store
  = (frozen_first_store, OK 16).
Proof. repeat split. Qed.

(** ** The Jacobian and the groups *)

(** Counterexample of C2.  No Jacobian provider gives every group its own
    columns: for the same model and parameters, with the two groups in either
    order, the Jacobian of the first group is the same matrix and would have
    one column and two columns at once.  With the Jacobian over the trainable
    parameters of the model, the first of the two groups gets three columns for
    its one entry, and [step] raises. *)
Lemma one_jacobian_for_every_group :
  (~ exists AG : Autograd, @group_columns_claim Z_scalar AG) /\
  ncols (modjac three_model three_store no_input) = 3%nat /\
  total (trainable_numels three_store (gn_params first_group)) = 1%nat /\
  GN_step two_groups_GN no_input three_targets three_store
  = (three_store,
     Error (RuntimeError "split_with_sizes expects split_sizes to sum exactly to the size of the dimension")).
Proof.
  split; [|repeat split].
  intros [AG H].
  pose proof (H two_groups_GN no_input three_store first_group [second_group]
                eq_refl) as H1.
  pose proof (H swapped_groups_GN no_input three_store second_group [first_group]
                eq_refl) as H2.
  change (gn_model swapped_groups_GN) with (gn_model two_groups_GN) in H2.
  rewrite H1 in H2. vm_compute in H2. discriminate.
Qed.

(** Witness of C2: the first of the two groups. *)
Lemma jacobian_is_of_the_model_witness :
  exists e, gn_group two_groups_GN no_input (column [2; 3; 4]) (column [1; 1; 1])
              first_group three_store = (three_store, inl e).
Proof.
  refine (proj1 (proj2 (proj2
            (jacobian_is_of_the_model two_groups_GN identity_LM no_input
               (column [2; 3; 4]) (column [1; 1; 1]) three_store first_group
               {| lm_params := []; damping := 1; lm_min := 0; lm_max := 1 |})))
          (column [2; 3; 4]) _ _).
  - vm_compute. reflexivity.
  - vm_compute. discriminate.
Defined.

(** ** The residual *)

(** Counterexample of C3.  Two targets for a tuple of one output: [step] raises
    nothing, drops the second target and updates the parameter. *)
Lemma arity_disagreement_not_detected :
  forward one_output_model (identity_store 5) no_input = Tuple [scalar_tensor 5] /\
  GN_step one_output_GN no_input
    (Some (Tuple [scalar_tensor 7; scalar_tensor 100])) (identity_store 5)
  = (identity_store 7, OK 0).
Proof. split; reflexivity. Qed.

(** Witness of C3: a target of three entries for an output of two. *)
Lemma residual_failure_leaves_parameters_witness :
  _residual identity_model [vector_param true [5; 6]] no_input
    (Some (Single (vector_tensor [1; 2; 3])))
  = inl (RuntimeError "The size of tensor a must match the size of tensor b") /\
  GN_step identity_GN no_input (Some (Single (vector_tensor [1; 2; 3])))
    [vector_param true [5; 6]]
  = ([vector_param true [5; 6]],
     inl (RuntimeError "The size of tensor a must match the size of tensor b")).
Proof.
  split; [reflexivity|].
  apply (proj1 (residual_failure_leaves_parameters identity_GN identity_LM no_input
                  (Some (Single (vector_tensor [1; 2; 3])))
                  [vector_param true [5; 6]])).
  reflexivity.
Defined.

(** Witness of C8: a scalar and a vector, with targets of the same shapes. *)
Lemma residual_is_target_minus_output_witness :
  targets_match (forward pair_model pair_store no_input)
    (Some (Tuple [scalar_tensor 7; vector_tensor [10; 20]])) /\
  _residual pair_model pair_store no_input
    (Some (Tuple [scalar_tensor 7; vector_tensor [10; 20]]))
  = OK (column [2; 4; 13]).
Proof.
  assert (H : targets_match (forward pair_model pair_store no_input)
                (Some (Tuple [scalar_tensor 7; vector_tensor [10; 20]]))).
  { simpl. split; [|discriminate]. repeat constructor. }
  split; [exact H|].
  exact (residual_is_target_minus_output pair_model pair_store no_input _ H).
Defined.

(** ** The solve *)

(** Witness of C6. *)
Lemma solves_against_weighted_residuals_witness :
  (ncols (column [2; 3]) = 1%nat /\
   nrows (column [2; 3]) = nrows (Matrix (SC:=Z_scalar) 2 [[1; 2]; [3; 4]]) /\
   nrows (column [5; 7]) = nrows (Matrix (SC:=Z_scalar) 2 [[1; 2]; [3; 4]])) /\
  weighted_gradient (column [2; 3]) (Matrix (SC:=Z_scalar) 2 [[1; 2]; [3; 4]]) (column [5; 7])
  = irls_gradient (column [2; 3]) (Matrix (SC:=Z_scalar) 2 [[1; 2]; [3; 4]]) (column [5; 7]).
Proof.
  split; [repeat split|].
  exact (proj1 (solves_against_weighted_residuals
                  first_group
                  {| lm_params := []; damping := 1; lm_min := 0; lm_max := 1 |}
                  (column [2; 3]) (Matrix (SC:=Z_scalar) 2 [[1; 2]; [3; 4]]) (column [5; 7])
                  eq_refl eq_refl eq_refl)).
Defined.


(** ** Several groups *)

(** Witness of C10: the second group solves with the residual 2 of the start,
    though the first group has brought the parameter to its target. *)
Lemma residual_and_weights_computed_once_witness :
  _residual identity_model (identity_store 5) no_input (Some (Single (scalar_tensor 7)))
  = inr (column [2]) /\
  for_each (gn_group twice_GN no_input (column [2])
              (jacobian (fun x => msum x) (msquare (column [2]))))
    [first_group] (identity_store 5)
  = (identity_store 7, inr tt) /\
  _residual identity_model (identity_store 7) no_input (Some (Single (scalar_tensor 7)))
  = inr (column [0]) /\
  GN_step twice_GN no_input (Some (Single (scalar_tensor 7))) (identity_store 5)
  = (identity_store 9, OK 4).
Proof.
  split; [reflexivity | split; [reflexivity | split; [reflexivity|]]].
  exact (proj1 (residual_and_weights_computed_once twice_GN twice_LM no_input
                  (Some (Single (scalar_tensor 7))) (identity_store 5)
                  (identity_store 7) (column [2]))
           [first_group] first_group [] eq_refl eq_refl eq_refl).
Defined.

End Runs.

(** * Further properties of the optimizers *)

Section MoreFacts.

Context {SC : Scalar} {AG : Autograd} {LA : Linalg}.

Local Open Scope num_scope.

Add Ring num_ring_more : num_ring.

(** ** The layout of the store *)

Lemma evolves_lookup s s' p q :
  evolves s s' -> nth_error s p = Some q ->
  exists q', nth_error s' p = Some q' /\ param_evolves q q'.
Proof.
  intros H; revert p. induction H as [|x x' s s' Hx _ IH]; intros p Hp;
    destruct p; simpl in *; try discriminate.
  - inversion Hp; subst. eauto.
  - now apply IH.
Qed.

Lemma evolves_length s s' : evolves s s' -> length s' = length s.
Proof. intros H. symmetry. exact (Forall2_length H). Qed.

Lemma evolves_trainable_numels s s' params :
  evolves s s' -> trainable_numels s' params = trainable_numels s params.
Proof.
  intros H. unfold trainable_numels. apply flat_map_ext. intros p.
  destruct (nth_error s p) as [q|] eqn:Hp.
  - destruct (evolves_lookup s s' p q H Hp) as (q' & Hq' & Hg & Hs & _).
    rewrite Hq', Hg. unfold numel. now rewrite Hs.
  - apply nth_error_None in Hp. rewrite <- (evolves_length s s' H) in Hp.
    apply nth_error_None in Hp. now rewrite Hp.
Qed.

(** X1.  [step] keeps the layout of the parameters, whether it returns or
    raises: the store has as many parameters as before, and each of them has
    the [requires_grad] flag and the shape it had. *)
Theorem step_keeps_layout :
  forall (gn : GaussNewton) (lm : LevenbergMarquardt) (inputs : value)
         (targets : option value) (s : store) (p : ref) (q : Param),
    nth_error s p = Some q ->
    (length (fst (GN_step gn inputs targets s)) = length s /\
     exists q', nth_error (fst (GN_step gn inputs targets s)) p = Some q'
                /\ requires_grad q' = requires_grad q
                /\ shape (p_tensor q') = shape (p_tensor q)) /\
    (length (fst (LM_step lm inputs targets s)) = length s /\
     exists q', nth_error (fst (LM_step lm inputs targets s)) p = Some q'
                /\ requires_grad q' = requires_grad q
                /\ shape (p_tensor q') = shape (p_tensor q)).
Proof.
  intros gn lm inputs targets s p q Hp.
  pose proof (preserves_GN_step gn inputs targets s) as Hg.
  pose proof (preserves_LM_step lm inputs targets s) as Hl.
  split; (split; [now apply evolves_length|]).
  - destruct (evolves_lookup _ _ p q Hg Hp) as (q' & Hq' & H1 & H2 & _). eauto.
  - destruct (evolves_lookup _ _ p q Hl Hp) as (q' & Hq' & H1 & H2 & _). eauto.
Qed.

(** X2.  [count_parameters] of a model is the same before and after a [step]
    of either optimizer, whatever the optimizer, its groups and the outcome of
    the call. *)
Theorem count_parameters_after_step :
  forall (model : Model) (gn : GaussNewton) (lm : LevenbergMarquardt)
         (inputs : value) (targets : option value) (s : store),
    count_parameters model (fst (GN_step gn inputs targets s))
    = count_parameters model s /\
    count_parameters model (fst (LM_step lm inputs targets s))
    = count_parameters model s.
Proof.
  intros model gn lm inputs targets s. unfold count_parameters. split.
  - now rewrite (evolves_trainable_numels _ _ _ (preserves_GN_step gn inputs targets s)).
  - now rewrite (evolves_trainable_numels _ _ _ (preserves_LM_step lm inputs targets s)).
Qed.

(** ** Parameters outside the groups *)

Section Outside.

Variable p : ref.

Let same_at (s s' : store) : Prop := nth_error s' p = nth_error s p.

Lemma same_at_refl s : same_at s s.
Proof. reflexivity. Qed.

Lemma same_at_trans s1 s2 s3 : same_at s1 s2 -> same_at s2 s3 -> same_at s1 s3.
Proof. unfold same_at. congruence. Qed.

Lemma apply_updates_outside params D :
  ~ In p params -> preserves same_at (apply_updates params D).
Proof.
  revert D; induction params as [|p' params IH]; intros D Hnin s;
    destruct D as [|d D]; simpl; try apply same_at_refl.
  assert (Hne : p' <> p) by (intros ->; apply Hnin; now left).
  assert (Hnin' : ~ In p params) by (intros H; apply Hnin; now right).
  rewrite bind_get.
  destruct (nth_error s p') as [q|] eqn:Hp; [|now apply IH].
  destruct (requires_grad q); [|now apply IH].
  unfold bind at 1, lift.
  destruct (view d (shape (p_tensor q))) as [e|v]; simpl; [apply same_at_refl|].
  unfold bind, add_. rewrite Hp.
  eapply same_at_trans; [|now apply IH].
  unfold same_at. now apply nth_error_set_param_other.
Qed.

Lemma gn_group_outside opt inputs E K pg :
  ~ In p (gn_params pg) -> preserves same_at (gn_group opt inputs E K pg).
Proof.
  intros Hnin s. rewrite gn_group_unfold.
  destruct (gn_solve _ _ _ _ _) as [e|D]; [apply same_at_refl|].
  unfold bind, lift. destruct (split D _) as [e|Ds]; [apply same_at_refl|].
  now apply apply_updates_outside.
Qed.

Lemma lm_group_outside opt inputs E K pg :
  ~ In p (lm_params pg) -> preserves same_at (lm_group opt inputs E K pg).
Proof.
  intros Hnin s. rewrite lm_group_unfold.
  destruct (lm_solve _ _ _ _) as [e|D]; [apply same_at_refl|].
  unfold bind, lift. destruct (split D _) as [e|Ds]; [apply same_at_refl|].
  now apply apply_updates_outside.
Qed.

(** X5.  [step] modifies parameters of its groups only: a parameter that is in
    no group of the optimizer is, after the call, as it was before, whether the
    call returns or raises. *)
Theorem step_changes_only_group_parameters :
  forall (gn : GaussNewton) (lm : LevenbergMarquardt) (inputs : value)
         (targets : option value) (s : store),
    ((forall pg, In pg (gn_param_groups gn) -> ~ In p (gn_params pg)) ->
     nth_error (fst (GN_step gn inputs targets s)) p = nth_error s p) /\
    ((forall pg, In pg (lm_param_groups lm) -> ~ In p (lm_params pg)) ->
     nth_error (fst (LM_step lm inputs targets s)) p = nth_error s p).
Proof.
  intros gn lm inputs targets s. split; intros Hout.
  - revert s. change (preserves same_at (GN_step gn inputs targets)). unfold GN_step.
    apply (preserves_bind same_at same_at_trans); [apply preserves_get, same_at_refl|].
    intros s'.
    apply (preserves_bind same_at same_at_trans); [apply preserves_lift, same_at_refl|].
    intros E.
    apply (preserves_bind same_at same_at_trans).
    + apply (preserves_for_each same_at same_at_refl same_at_trans).
      intros pg Hpg. apply gn_group_outside. now apply Hout.
    + intros _. apply preserves_loss_of, same_at_refl.
  - revert s. change (preserves same_at (LM_step lm inputs targets)). unfold LM_step.
    apply (preserves_bind same_at same_at_trans); [apply preserves_get, same_at_refl|].
    intros s'.
    apply (preserves_bind same_at same_at_trans); [apply preserves_lift, same_at_refl|].
    intros E.
    apply (preserves_bind same_at same_at_trans).
    + apply (preserves_for_each same_at same_at_refl same_at_trans).
      intros pg Hpg. apply lm_group_outside. now apply Hout.
    + intros _. apply preserves_loss_of, same_at_refl.
Qed.

End Outside.

(** ** The loss that [step] returns *)

Lemma loss_of_returns kernel model inputs targets s s' l :
  loss_of kernel model inputs targets s = (s', inr l) ->
  s' = s /\ exists E, _residual model s inputs targets = inr E
                      /\ l = msum (kernel (msquare E)).
Proof.
  unfold loss_of. rewrite bind_get. unfold bind, lift, ret.
  destruct (_residual model s inputs targets) as [e|E]; [discriminate|].
  intros H. inversion H; subst. eauto.
Qed.

Lemma GN_step_returns_loss gn inputs targets s s' l :
  GN_step gn inputs targets s = (s', inr l) ->
  exists E', _residual (gn_model gn) s' inputs targets = inr E'
             /\ l = msum (gn_kernel gn (msquare E')).
Proof.
  unfold GN_step. rewrite bind_get. unfold bind at 1, lift.
  destruct (_residual (gn_model gn) s inputs targets) as [e|E]; [discriminate|].
  unfold bind at 1.
  destruct (for_each _ _ s) as [s1 [e|[]]]; [discriminate|].
  intros H. now destruct (loss_of_returns _ _ _ _ _ _ _ H) as [-> HE].
Qed.

Lemma LM_step_returns_loss lm inputs targets s s' l :
  LM_step lm inputs targets s = (s', inr l) ->
  exists E', _residual (lm_model lm) s' inputs targets = inr E'
             /\ l = msum (lm_kernel lm (msquare E')).
Proof.
  unfold LM_step. rewrite bind_get. unfold bind at 1, lift.
  destruct (_residual (lm_model lm) s inputs targets) as [e|E]; [discriminate|].
  unfold bind at 1.
  destruct (for_each _ _ s) as [s1 [e|[]]]; [discriminate|].
  intros H. now destruct (loss_of_returns _ _ _ _ _ _ _ H) as [-> HE].
Qed.

(** X6.  The loss that [step] returns is the loss at the parameters it leaves:
    the kernel applied to the squares of the residual evaluated after the
    update, summed. *)
Theorem step_returns_loss_after_update :
  forall (gn : GaussNewton) (lm : LevenbergMarquardt) (inputs : value)
         (targets : option value) (s s' : store) (l : num),
    (GN_step gn inputs targets s = (s', inr l) ->
     exists E', _residual (gn_model gn) s' inputs targets = inr E'
                /\ l = msum (gn_kernel gn (msquare E'))) /\
    (LM_step lm inputs targets s = (s', inr l) ->
     exists E', _residual (lm_model lm) s' inputs targets = inr E'
                /\ l = msum (lm_kernel lm (msquare E'))).
Proof.
  intros gn lm inputs targets s s' l. split.
  - apply GN_step_returns_loss.
  - apply LM_step_returns_loss.
Qed.

(** ** A group whose parameters are all trainable *)

Lemma Forall2_and {A B} (P Q : A -> B -> Prop) l l' :
  Forall2 P l l' -> Forall2 Q l l' -> Forall2 (fun a b => P a b /\ Q a b) l l'.
Proof.
  intros HP; induction HP; intros HQ; inversion HQ; subst; constructor; auto.
Qed.

Lemma split_rows_trainable s params :
  (forall p, In p params ->
             exists q, nth_error s p = Some q /\ requires_grad q = true) ->
  forall rs,
    length rs = total (trainable_numels s params) ->
    concat (map mrows (split_rows 1 rs (trainable_numels s params))) = rs /\
    Forall2 (fun p d => exists q, nth_error s p = Some q /\ requires_grad q = true
                                  /\ nrows d = numel (p_tensor q)
                                  /\ ncols d = 1%nat)
            params (split_rows 1 rs (trainable_numels s params)).
Proof.
  induction params as [|p params IH]; intros Hall rs Hlen.
  - simpl in *. destruct rs; [split; [reflexivity | constructor] | discriminate].
  - destruct (Hall p (or_introl eq_refl)) as (q & Hp & Hg).
    assert (Hcons : trainable_numels s (p :: params)
                    = numel (p_tensor q) :: trainable_numels s params).
    { unfold trainable_numels. simpl. now rewrite Hp, Hg. }
    rewrite Hcons in *. simpl in *.
    destruct (IH (fun p' Hp' => Hall p' (or_intror Hp'))
                 (skipn (numel (p_tensor q)) rs)) as [Hc HF].
    { rewrite length_skipn. unfold total in *. lia. }
    split.
    + rewrite Hc. apply firstn_skipn.
    + constructor; [|exact HF]. exists q. repeat split; try assumption.
      unfold nrows; simpl. rewrite length_firstn. unfold total in *. lia.
Qed.

Lemma group_update_all_trainable params D s :
  NoDup params ->
  (forall p, In p params ->
             exists q, nth_error s p = Some q /\ requires_grad q = true) ->
  ncols D = 1%nat ->
  nrows D = total (trainable_numels s params) ->
  exists s',
    bind (lift (split D (trainable_numels s params))) (apply_updates params) s
    = (s', OK tt) /\ slices_added params D s s'.
Proof.
  intros Hnd Hall Hc Hr.
  destruct (split_rows_trainable s params Hall (mrows D) Hr) as [Hcat HF].
  unfold bind, lift, split. fold (total (trainable_numels s params)).
  rewrite Hr, Nat.eqb_refl, Hc.
  destruct (apply_updates_all_trainable params
              (split_rows 1 (mrows D) (trainable_numels s params)) s Hnd)
    as (s' & Hrun & Hupd & Hrest).
  { eapply Forall2_impl; [|exact HF].
    intros p d (q & Hp & Hg & Hn & Hc'). exists q. repeat split; try assumption.
    rewrite Hn, Hc'. lia. }
  exists s'. split; [exact Hrun|].
  exists (split_rows 1 (mrows D) (trainable_numels s params)).
  split; [exact Hcat | split; [|exact Hrest]].
  eapply Forall2_impl; [|exact (Forall2_and _ _ _ _ HF Hupd)].
  intros p d [(q & Hp & _ & Hn & _) (q' & Hp' & Hq')].
  exists q. repeat split; try assumption. congruence.
Qed.

(** X7.  In a group whose parameters are distinct and all trainable, when the
    solve returns a column with one row for each trainable entry of the group,
    the update of the group returns and the column reaches the parameters slice
    by slice: consecutive blocks of rows, in the order of the parameters, each
    of the size of its parameter and added to it; no other parameter
    changes. *)
Theorem trainable_group_receives_slices :
  forall (gn : GaussNewton) (lm : LevenbergMarquardt) (inputs : value)
         (E K : matrix) (gpg : GNGroup) (lpg : LMGroup) (s : store) (D : matrix),
    ncols D = 1%nat ->
    (gn_solve (fast gn) gpg K (modjac (gn_model gn) s inputs) E = inr D ->
     NoDup (gn_params gpg) ->
     (forall p, In p (gn_params gpg) ->
                exists q, nth_error s p = Some q /\ requires_grad q = true) ->
     nrows D = total (trainable_numels s (gn_params gpg)) ->
     exists s', gn_group gn inputs E K gpg s = (s', OK tt)
                /\ slices_added (gn_params gpg) D s s') /\
    (lm_solve lpg K (modjac (lm_model lm) s inputs) E = inr D ->
     NoDup (lm_params lpg) ->
     (forall p, In p (lm_params lpg) ->
                exists q, nth_error s p = Some q /\ requires_grad q = true) ->
     nrows D = total (trainable_numels s (lm_params lpg)) ->
     exists s', lm_group lm inputs E K lpg s = (s', OK tt)
                /\ slices_added (lm_params lpg) D s s').
Proof.
  intros gn lm inputs E K gpg lpg s D Hc. split; intros HD Hnd Hall Hr.
  - rewrite gn_group_unfold, HD. now apply group_update_all_trainable.
  - rewrite lm_group_unfold, HD. now apply group_update_all_trainable.
Qed.

(** ** The shape of the residual *)

Lemma view_col_wf t : ncols (view_col t) = 1%nat /\ matrix_wf (view_col t).
Proof.
  split; [reflexivity|]. unfold matrix_wf, view_col; simpl.
  apply Forall_forall. intros r Hr. apply in_map_iff in Hr.
  destruct Hr as (x & <- & _). reflexivity.
Qed.

Lemma mneg_wf m :
  ncols m = 1%nat /\ matrix_wf m -> ncols (mneg m) = 1%nat /\ matrix_wf (mneg m).
Proof.
  intros [Hc Hw]. split; [exact Hc|]. unfold matrix_wf, mneg, mmap in *; simpl.
  apply Forall_forall. intros r Hr. apply in_map_iff in Hr.
  destruct Hr as (r0 & <- & Hr0). rewrite length_map.
  rewrite Forall_forall in Hw. now apply Hw.
Qed.

Lemma cat_wf ms E :
  Forall (fun m => ncols m = 1%nat /\ matrix_wf m) ms -> cat ms = inr E ->
  ncols E = 1%nat /\ matrix_wf E.
Proof.
  intros Hms. unfold cat. destruct ms as [|m ms]; [discriminate|].
  destruct (forallb _ _); [|discriminate].
  intros H. inversion H; subst; clear H. rewrite Forall_forall in Hms.
  destruct (Hms m (or_introl eq_refl)) as [Hc _].
  split; [exact Hc|]. unfold matrix_wf. cbn [ncols mrows]. rewrite Hc.
  apply Forall_forall. intros r Hr.
  change (In r (concat (map mrows (m :: ms)))) in Hr. apply in_concat in Hr.
  destruct Hr as (rs & Hrs & Hr). apply in_map_iff in Hrs.
  destruct Hrs as (m' & <- & Hm'). destruct (Hms m' Hm') as [Hc' Hw'].
  unfold matrix_wf in Hw'. rewrite Forall_forall in Hw'.
  rewrite <- Hc'. now apply Hw'.
Qed.

(** X8.  Whenever [_residual] returns, what it returns is a column: a matrix of
    one column, each of whose rows has one entry. *)
Theorem residual_is_a_column :
  forall (model : Model) (s : store) (inputs : value) (targets : option value)
         (E : matrix),
    _residual model s inputs targets = inr E ->
    ncols E = 1%nat /\ matrix_wf E.
Proof.
  intros model s inputs targets E. unfold _residual.
  destruct targets as [tg|], (forward model s inputs) as [o|os].
  - destruct tg as [t|ts]; [|discriminate].
    destruct (tsub t o) as [e|d]; simpl; [discriminate|].
    intros H. inversion H. apply view_col_wf.
  - destruct (iter_value tg) as [e|ts]; simpl; [discriminate|].
    destruct (mapM _ (combine ts os)) as [e|cols] eqn:Hm; simpl; [discriminate|].
    apply cat_wf. apply (mapM_Forall _ _ _ _ Hm). intros to m _.
    destruct (tsub (fst to) (snd to)) as [e|d]; simpl; [discriminate|].
    intros H. inversion H. apply view_col_wf.
  - intros H. inversion H. apply mneg_wf, view_col_wf.
  - apply cat_wf. apply Forall_forall. intros m Hm. apply in_map_iff in Hm.
    destruct Hm as (o & <- & _). apply mneg_wf, view_col_wf.
Qed.

(** ** The residual at the edges *)

Lemma residual_of_no_output model s inputs targets :
  forward model s inputs = Tuple [] ->
  exists e, _residual model s inputs targets = inl e.
Proof.
  intros Hf. unfold _residual. rewrite Hf.
  destruct targets as [tg|]; [|eexists; reflexivity].
  destruct (iter_value tg) as [e|ts]; simpl; [eexists; reflexivity|].
  rewrite combine_nil. simpl. eexists. reflexivity.
Qed.

(** X9.  A model that returns the empty tuple makes [step] raise, with or
    without targets, and no parameter is changed; a tuple of targets for a
    model that returns a single tensor makes [_residual] raise a [TypeError]. *)
Theorem residual_of_degenerate_outputs :
  forall (gn : GaussNewton) (lm : LevenbergMarquardt) (inputs : value)
         (targets : option value) (s : store),
    (forward (gn_model gn) s inputs = Tuple [] ->
     exists e, GN_step gn inputs targets s = (s, inl e)) /\
    (forward (lm_model lm) s inputs = Tuple [] ->
     exists e, LM_step lm inputs targets s = (s, inl e)) /\
    (forall model o ts,
        forward model s inputs = Single o ->
        _residual model s inputs (Some (Tuple ts))
        = Error (TypeError "unsupported operand type(s) for -: 'tuple' and 'Tensor'")).
Proof.
  intros gn lm inputs targets s. split; [|split].
  - intros Hf. destruct (residual_of_no_output _ s inputs targets Hf) as [e He].
    exists e. now apply GN_step_residual_error.
  - intros Hf. destruct (residual_of_no_output _ s inputs targets Hf) as [e He].
    exists e. now apply LM_step_residual_error.
  - intros model o ts Hf. unfold _residual. now rewrite Hf.
Qed.

(** ** No targets and zero targets *)

Lemma map2_sub_zero (d : list num) :
  map2 rsub (repeat rO (length d)) d = map ropp d.
Proof.
  induction d as [|x d IH]; simpl; [reflexivity|]. rewrite IH. f_equal. ring.
Qed.

Lemma zeros_like_same_shape o : tensor_wf o -> same_shape (zeros_like o) o.
Proof.
  intros Hw. repeat split; [|exact Hw].
  unfold tensor_wf, zeros_like, numel; simpl. apply repeat_length.
Qed.

Lemma sub_zeros_like o :
  tensor_wf o ->
  (let? d := tsub (zeros_like o) o in OK (view_col d)) = OK (mneg (view_col o)).
Proof.
  intros Hw. rewrite (tsub_same_shape _ _ (zeros_like_same_shape o Hw)). simpl.
  rewrite mneg_view_col. unfold view_col, column; simpl.
  unfold tensor_wf in Hw. now rewrite <- Hw, map2_sub_zero.
Qed.

Lemma mapM_sub_zeros_like os :
  Forall tensor_wf os ->
  mapM (fun to => let? d := tsub (fst to) (snd to) in OK (view_col d))
       (combine (map zeros_like os) os)
  = OK (map (fun o => mneg (view_col o)) os).
Proof.
  induction 1 as [|o os Ho _ IH]; simpl; [reflexivity|].
  rewrite (sub_zeros_like o Ho). simpl. rewrite IH. reflexivity.
Qed.

(** X10.  Calling [_residual] without targets is calling it with targets of
    zeros of the shapes of the outputs: the same residual, or the same
    exception. *)
Theorem no_targets_are_zero_targets :
  forall (model : Model) (s : store) (inputs : value),
    value_wf (forward model s inputs) ->
    _residual model s inputs None
    = _residual model s inputs (Some (zero_targets (forward model s inputs))).
Proof.
  intros model s inputs Hw. unfold _residual.
  destruct (forward model s inputs) as [o|os]; simpl in *.
  - now rewrite (sub_zeros_like o Hw).
  - now rewrite (mapM_sub_zeros_like os Hw).
Qed.

(** ** The normal matrices *)

Lemma transpose_mk_symmetric n f :
  (forall i j, (i < n)%nat -> (j < n)%nat -> f i j = f j i) ->
  transpose (mk_matrix n n f) = mk_matrix n n f.
Proof.
  intros Hf. unfold transpose. rewrite nrows_mk_matrix, ncols_mk_matrix.
  apply mk_matrix_ext. intros i j Hi Hj.
  rewrite entry_mk_matrix by assumption. now apply Hf.
Qed.

Lemma entry_gram J i j :
  (i < ncols J)%nat -> (j < ncols J)%nat ->
  entry (gram J) i j = sum_upto (nrows J) (fun k => entry J k i * entry J k j).
Proof. intros Hi Hj. unfold gram. now rewrite entry_mk_matrix. Qed.

Lemma entry_gram_symmetric J i j :
  (i < ncols J)%nat -> (j < ncols J)%nat -> entry (gram J) i j = entry (gram J) j i.
Proof.
  intros Hi Hj. rewrite !entry_gram by assumption.
  apply sum_upto_ext. intros k _. ring.
Qed.

(** X11.  [J.T @ J] never raises, and neither does the damping of LM: both
    matrices are square of the size of the columns of [J] and symmetric, and
    the damping changes the diagonal only. *)
Theorem normal_matrices_are_symmetric :
  forall (pg : LMGroup) (J : matrix),
  exists A B,
    matmul (transpose J) J = OK A /\ lm_system pg J = OK B /\
    (nrows A = ncols J /\ ncols A = ncols J /\ transpose A = A) /\
    (nrows B = ncols J /\ ncols B = ncols J /\ transpose B = B) /\
    (forall i j, (i < ncols J)%nat -> (j < ncols J)%nat -> i <> j ->
                 entry B i j = entry A i j).
Proof.
  intros pg J. exists (gram J), (lm_normal_matrix pg J).
  split; [apply matmul_transpose_self | split; [apply lm_system_normal|]].
  split; [|split].
  - repeat split; [apply nrows_mk_matrix|].
    apply transpose_mk_symmetric. intros i j _ _.
    apply sum_upto_ext. intros k _. ring.
  - repeat split; [apply nrows_mk_matrix|].
    apply transpose_mk_symmetric. intros i j Hi Hj.
    destruct (Nat.eqb_spec i j) as [->|Hij].
    + now rewrite Nat.eqb_refl.
    + destruct (Nat.eqb_spec j i) as [->|_]; [congruence|].
      now apply entry_gram_symmetric.
  - intros i j Hi Hj Hij. unfold lm_normal_matrix.
    rewrite entry_mk_matrix by assumption.
    destruct (Nat.eqb_spec i j); [contradiction | reflexivity].
Qed.

Lemma clamp_between lo hi x :
  (forall a b, rleb a b = true \/ rleb b a = true) ->
  rleb lo hi = true ->
  rleb lo (clamp lo hi x) = true /\ rleb (clamp lo hi x) hi = true.
Proof.
  intros Htot Hlh.
  assert (Hrefl : forall a, rleb a a = true) by (intros a; now destruct (Htot a a)).
  unfold clamp, smax, smin.
  destruct (rleb x lo) eqn:Hx.
  - rewrite Hlh. auto.
  - assert (Hlx : rleb lo x = true).
    { destruct (Htot lo x) as [H|H]; [exact H | congruence]. }
    destruct (rleb x hi) eqn:Hxh; auto.
Qed.

(** X14.  When the order of the scalars is total and [min <= max], the damping
    of LM adds to each diagonal entry of [J.T @ J] the product of the damping
    factor and a value between [min] and [max]. *)
Theorem damping_is_clamped :
  forall (pg : LMGroup) (J : matrix) (i : nat),
    (forall a b, rleb a b = true \/ rleb b a = true) ->
    rleb (lm_min pg) (lm_max pg) = true ->
    (i < ncols J)%nat ->
    exists A c,
      lm_system pg J = OK A /\
      entry A i i = entry (gram J) i i + damping pg * c /\
      rleb (lm_min pg) c = true /\ rleb c (lm_max pg) = true.
Proof.
  intros pg J i Htot Hlh Hi.
  exists (lm_normal_matrix pg J),
         (clamp (lm_min pg) (lm_max pg) (entry (gram J) i i)).
  split; [apply lm_system_normal | split].
  - unfold lm_normal_matrix. rewrite entry_mk_matrix by assumption.
    now rewrite Nat.eqb_refl.
  - now apply clamp_between.
Qed.

(** ** The weighted gradient and the shapes *)

Lemma entry_column (l : list num) k : entry (column l) k 0 = nth k l rO.
Proof.
  unfold entry, column; simpl. revert k.
  induction l as [|x l IH]; intros [|k]; simpl; try reflexivity. apply IH.
Qed.

(** X12.  With weights of the shape of the residual, [K.T * J.T @ E] returns
    exactly when the residual has as many rows as the Jacobian, or the Jacobian
    has a single row, which is then broadcast over the residual; otherwise it
    raises.  What it returns has a row for each column of [J]. *)
Theorem weighted_gradient_checks_rows :
  forall (K J E : matrix),
    ncols K = 1%nat -> nrows K = nrows E ->
    ((exists b, weighted_gradient K J E = inr b)
     <-> nrows E = nrows J \/ nrows J = 1%nat) /\
    (forall b, weighted_gradient K J E = inr b ->
               nrows b = ncols J /\ ncols b = ncols E).
Proof.
  intros K J E HK1 HKr. unfold weighted_gradient, bmul.
  rewrite !nrows_transpose, !ncols_transpose, HK1, HKr, bdim_one_l.
  unfold bdim.
  destruct (Nat.eqb_spec (nrows E) (nrows J)) as [HEJ|HEJ];
    [|destruct (Nat.eqb_spec (nrows E) 1) as [HE1|HE1];
      [|destruct (Nat.eqb_spec (nrows J) 1) as [HJ1|HJ1]]];
    simpl; unfold matmul; rewrite ?nrows_mk_matrix, ?ncols_mk_matrix.
  - rewrite Nat.eqb_refl. split.
    + split; [auto | eauto].
    + intros b H. inversion H. now rewrite nrows_mk_matrix.
  - destruct (Nat.eqb_spec (nrows J) (nrows E)); [congruence|]. split.
    + split; [intros [b H]; discriminate | intros [H|H]; congruence].
    + discriminate.
  - rewrite Nat.eqb_refl. split.
    + split; [auto | eauto].
    + intros b H. inversion H. now rewrite nrows_mk_matrix.
  - split.
    + split; [intros [b H]; discriminate | intros [H|H]; congruence].
    + discriminate.
Qed.

(** X13.  With all weights equal to one, as the identity kernel gives them, the
    right-hand side of the solve is [J.T @ E], that of ordinary least
    squares. *)
Theorem unit_weights_give_least_squares :
  forall (J E : matrix),
    nrows E = nrows J ->
    weighted_gradient (ones (nrows J)) J E = matmul (transpose J) E.
Proof.
  intros J E HE.
  assert (Hr : nrows (ones (nrows J)) = nrows J).
  { unfold nrows, ones, column; simpl. now rewrite length_map, repeat_length. }
  rewrite (weighted_gradient_irls (ones (nrows J)) J E eq_refl Hr HE).
  unfold irls_gradient, bmul. rewrite Hr, HE, bdim_refl.
  change (ncols (ones (nrows J))) with 1%nat. rewrite bdim_one_l. simpl.
  unfold matmul. rewrite ncols_transpose, nrows_mk_matrix, HE, Nat.eqb_refl.
  rewrite nrows_transpose, ncols_mk_matrix. unfold OK. f_equal.
  apply mk_matrix_ext. intros i j Hi Hj.
  apply sum_upto_ext. intros k Hk.
  rewrite entry_mk_matrix by assumption.
  rewrite (bidx_lt _ _ Hk), (bidx_lt _ _ Hj). unfold bidx at 1; simpl.
  unfold ones. rewrite entry_column, nth_repeat_lt by assumption. ring.
Qed.

(** ** Construction *)

Lemma Optimizer_init_returns {G} params (defaults : list ref -> G) groups :
  Optimizer_init params defaults = inr groups -> groups = [defaults params].
Proof.
  unfold Optimizer_init. destruct params; [discriminate|].
  intros H. now inversion H.
Qed.

Lemma GN_init_returns model kernel fast rc dr opt :
  GN_init model kernel fast rc dr = inr opt ->
  opt = {| gn_model := model; gn_kernel := kernel_or_identity kernel; fast := fast;
           gn_param_groups := [ {| gn_params := parameters model;
                                   rcond := rc; driver := dr |} ] |}.
Proof.
  unfold GN_init.
  destruct (Optimizer_init _ _) as [e|groups] eqn:Hg; simpl; [discriminate|].
  apply Optimizer_init_returns in Hg. subst. intros H. now inversion H.
Qed.

Lemma LM_init_returns model d kernel lo hi opt :
  LM_init model d kernel lo hi = inr opt ->
  rltb rO d = true /\
  opt = {| lm_model := model; lm_kernel := kernel_or_identity kernel;
           lm_param_groups := [ {| lm_params := parameters model; damping := d;
                                   lm_min := lo; lm_max := hi |} ] |}.
Proof.
  unfold LM_init, assert. destruct (rltb rO d); simpl; [|discriminate].
  destruct (Optimizer_init _ _) as [e|groups] eqn:Hg; simpl; [discriminate|].
  apply Optimizer_init_returns in Hg. subst. intros H. now inversion H.
Qed.

(** X15.  An optimizer that a constructor returns has one parameter group,
    which holds all the parameters of the model with the options given, so
    that the sizes by which [step] splits the update total
    [count_parameters(model)]; in one that [LevenbergMarquardt] returns the
    damping is positive. *)
Theorem constructors_register_one_group :
  forall (model : Model) (kernel : option (matrix -> matrix)) (fast : bool)
         (rc : option num) (dr : option string) (d lo hi : num),
    (forall opt, GN_init model kernel fast rc dr = inr opt ->
       gn_model opt = model /\
       gn_param_groups opt
       = [ {| gn_params := parameters model; rcond := rc; driver := dr |} ] /\
       forall s pg, In pg (gn_param_groups opt) ->
                    total (trainable_numels s (gn_params pg))
                    = count_parameters model s) /\
    (forall opt, LM_init model d kernel lo hi = inr opt ->
       lm_model opt = model /\
       lm_param_groups opt
       = [ {| lm_params := parameters model; damping := d;
              lm_min := lo; lm_max := hi |} ] /\
       (forall pg, In pg (lm_param_groups opt) -> rltb rO (damping pg) = true) /\
       forall s pg, In pg (lm_param_groups opt) ->
                    total (trainable_numels s (lm_params pg))
                    = count_parameters model s).
Proof.
  intros model kernel fast rc dr d lo hi. split; intros opt H.
  - apply GN_init_returns in H. subst. simpl.
    repeat split. intros s pg [<-|[]]. reflexivity.
  - apply LM_init_returns in H. destruct H as [Hd ->]. simpl.
    repeat split; intros; repeat match goal with
                                 | H : _ \/ _ |- _ => destruct H as [<-|H]
                                 | H : False |- _ => destruct H
                                 end; auto.
Qed.

(** X16.  Without a kernel the constructors take the identity: the loss that
    [step] then returns is the sum of the squares of the residual at the
    parameters it leaves. *)
Theorem default_kernel_gives_squared_error :
  forall (model : Model) (fast : bool) (rc : option num) (dr : option string)
         (d lo hi : num) (inputs : value) (targets : option value)
         (s s' : store) (l : num),
    (forall opt, GN_init model None fast rc dr = inr opt ->
       GN_step opt inputs targets s = (s', inr l) ->
       exists E', _residual model s' inputs targets = inr E' /\ l = msum (msquare E')) /\
    (forall opt, LM_init model d None lo hi = inr opt ->
       LM_step opt inputs targets s = (s', inr l) ->
       exists E', _residual model s' inputs targets = inr E' /\ l = msum (msquare E')).
Proof.
  intros model fast rc dr d lo hi inputs targets s s' l. split; intros opt Hi Hs.
  - apply GN_init_returns in Hi. subst.
    exact (GN_step_returns_loss _ _ _ _ _ _ Hs).
  - apply LM_init_returns in Hi. destruct Hi as [_ ->].
    exact (LM_step_returns_loss _ _ _ _ _ _ Hs).
Qed.

(** ** A group is updated as a whole or not at all *)

Lemma trainable_le_all s params :
  (total (trainable_numels s params) <= total (all_numels s params))%nat.
Proof.
  unfold total. induction params as [|p params IH]; simpl; [lia|].
  unfold trainable_numels, all_numels in *; simpl.
  destruct (nth_error s p) as [q|]; [|exact IH].
  destruct (requires_grad q); simpl; lia.
Qed.

Lemma frozen_entry_not_counted s params p q :
  In p params -> nth_error s p = Some q -> requires_grad q = false ->
  (0 < numel (p_tensor q))%nat ->
  (total (trainable_numels s params) < total (all_numels s params))%nat.
Proof.
  intros Hin Hp Hg Hn. induction params as [|p' params IH]; [contradiction|].
  pose proof (trainable_le_all s params) as Hle.
  unfold total, trainable_numels, all_numels in *; simpl.
  destruct Hin as [->|Hin].
  - rewrite Hp, Hg. simpl. lia.
  - specialize (IH Hin). destruct (nth_error s p') as [q'|]; [|exact IH].
    destruct (requires_grad q'); simpl; lia.
Qed.

Lemma all_trainable_numels s params :
  (forall p, In p params ->
             exists q, nth_error s p = Some q /\ requires_grad q = true) ->
  all_numels s params = trainable_numels s params.
Proof.
  induction params as [|p params IH]; intros Hall; [reflexivity|].
  unfold all_numels, trainable_numels in *. simpl.
  destruct (Hall p (or_introl eq_refl)) as (q & -> & ->).
  f_equal. apply IH. intros p' Hp'. apply Hall. now right.
Qed.

Lemma trainable_or_frozen s params :
  (forall p, In p params -> exists q, nth_error s p = Some q) ->
  (forall p, In p params ->
             exists q, nth_error s p = Some q /\ requires_grad q = true)
  \/ (exists p q, In p params /\ nth_error s p = Some q /\ requires_grad q = false).
Proof.
  induction params as [|p params IH]; intros Hex.
  - left. intros p [].
  - destruct (Hex p (or_introl eq_refl)) as (q & Hq).
    destruct (requires_grad q) eqn:Hg.
    + destruct (IH (fun p' Hp' => Hex p' (or_intror Hp'))) as [Hall|(p' & q' & Hin & H)].
      * left. intros p' [<-|Hp']; [eauto | now apply Hall].
      * right. exists p', q'. split; [now right | exact H].
    + right. exists p, q. split; [now left | auto].
Qed.

Lemma group_update_whole_or_none params D s :
  covers_every_entry D s params ->
  (exists e, bind (lift (split D (trainable_numels s params)))
                  (apply_updates params) s = (s, inl e))
  \/ (exists s', bind (lift (split D (trainable_numels s params)))
                      (apply_updates params) s = (s', OK tt)
                 /\ slices_added params D s s').
Proof.
  intros (Hnd & Hex & Hc & Hr).
  destruct (trainable_or_frozen s params) as [Hall|(p & q & Hin & Hp & Hg)].
  { intros p Hp. destruct (Hex p Hp) as (q & Hq & _). eauto. }
  - right. apply group_update_all_trainable; try assumption.
    now rewrite <- (all_trainable_numels s params Hall).
  - left. destruct (Hex p Hin) as (q' & Hp' & Hpos).
    assert (q' = q) by congruence. subst q'.
    pose proof (frozen_entry_not_counted s params p q Hin Hp Hg (Hpos Hg)) as Hlt.
    destruct (split_wrong_size D (trainable_numels s params)) as [e He]; [lia|].
    exists e. unfold bind, lift. now rewrite He.
Qed.


(** ** One step on the identity model *)

(** In exact arithmetic, on the model that returns its one scalar parameter,
    with the identity kernel, the Jacobian 1 and the weight 1: the update of
    one [GaussNewton.step] is [t - x]. *)
Lemma GN_step_on_output_param :
  forall (x t : num) (inputs : value) (rc : option num) (dr : option string),
    modjac (output_param 0) (one_param x) inputs = column [rI] ->
    jacobian (fun m => msum m) (msquare (column [t - x])) = column [rI] ->
    (pinverse (column [rI]) = OK (column [rI]) ->
     GN_step (GN_output_param false rc dr) inputs
       (Some (Single (Tensor [1%nat] [t]))) (one_param x)
     = (one_param t, OK rO)) /\
    (lstsq (column [rI]) (column [t - x]) rc dr = OK (column [t - x]) ->
     GN_step (GN_output_param true rc dr) inputs
       (Some (Single (Tensor [1%nat] [t]))) (one_param x)
     = (one_param t, OK rO)).
Proof.
  intros x t inputs rc dr HJ HK.
  assert (Hg : gram (column [rI]) = column [rI]).
  { cbv - [num rO rI radd rmul rsub ropp]. do 3 f_equal. ring. }
  assert (Hb : weighted_gradient (column [rI]) (column [rI]) (column [t - x])
               = OK (column [t - x])).
  { cbv - [num rO rI radd rmul rsub ropp]. do 4 f_equal. ring. }
  assert (HD : matmul (column [rI]) (column [t - x]) = OK (column [t - x])).
  { cbv - [num rO rI radd rmul rsub ropp]. do 4 f_equal. ring. }
  split; intros HS.
  - unfold GN_step. rewrite bind_get. unfold bind at 1, lift.
    change (_residual (gn_model (GN_output_param false rc dr)) (one_param x) inputs
              (Some (Single (Tensor [1%nat] [t]))))
      with (OK (column [t - x])).
    unfold OK at 1. cbv beta iota.
    change (jacobian (fun x0 => msum (gn_kernel (GN_output_param false rc dr) x0))
              (msquare (column [t - x])))
      with (jacobian (fun m => msum m) (msquare (column [t - x]))).
    rewrite HK. unfold bind at 1. cbn [for_each gn_param_groups GN_output_param].
    unfold bind at 1. rewrite gn_group_unfold.
    cbn [gn_model fast GN_output_param]. rewrite HJ.
    unfold gn_solve. rewrite matmul_transpose_self, Hg. cbn [rbind OK].
    rewrite HS. cbn [rbind OK]. rewrite Hb. cbn [rbind OK]. rewrite HD.
    cbv - [num rO rI radd rmul rsub ropp]. f_equal.
    + do 4 f_equal. ring.
    + f_equal. ring.
  - unfold GN_step. rewrite bind_get. unfold bind at 1, lift.
    change (_residual (gn_model (GN_output_param true rc dr)) (one_param x) inputs
              (Some (Single (Tensor [1%nat] [t]))))
      with (OK (column [t - x])).
    unfold OK at 1. cbv beta iota.
    change (jacobian (fun x0 => msum (gn_kernel (GN_output_param true rc dr) x0))
              (msquare (column [t - x])))
      with (jacobian (fun m => msum m) (msquare (column [t - x]))).
    rewrite HK. unfold bind at 1. cbn [for_each gn_param_groups GN_output_param].
    unfold bind at 1. rewrite gn_group_unfold.
    cbn [gn_model fast GN_output_param]. rewrite HJ.
    unfold gn_solve. rewrite matmul_transpose_self, Hg. cbn [rbind OK].
    rewrite Hb. cbn [rbind OK rcond driver]. rewrite HS.
    cbv - [num rO rI radd rmul rsub ropp]. f_equal.
    + do 4 f_equal. ring.
    + f_equal. ring.
Qed.

(** ** The clamp bounds of LM *)

Lemma clamp_zero_bounds x : clamp rO rO x = rO.
Proof.
  unfold clamp, smax, smin. destruct (rleb x rO) eqn:Hx.
  - now destruct (rleb rO rO).
  - now rewrite Hx.
Qed.

(** X18.  With both clamp bounds at zero the damping of LM adds nothing: the
    matrix it factorizes is [J.T @ J], the normal matrix of Gauss-Newton. *)
Theorem zero_clamp_bounds_give_GN_matrix :
  forall (pg : LMGroup) (J : matrix),
    lm_min pg = rO -> lm_max pg = rO ->
    lm_system pg J = matmul (transpose J) J.
Proof.
  intros pg J Hlo Hhi. rewrite lm_system_normal, matmul_transpose_self.
  unfold OK. f_equal. unfold lm_normal_matrix.
  rewrite (mk_matrix_ext _ _ _
             (fun i j => sum_upto (nrows J) (fun k => entry J k i * entry J k j)));
    [reflexivity|].
  intros i j Hi Hj. rewrite Hlo, Hhi, clamp_zero_bounds.
  rewrite entry_gram by assumption.
  destruct (i =? j)%nat; [ring | reflexivity].
Qed.

Lemma clamp_crossed_bounds lo hi x :
  (forall a b, rleb a b = true \/ rleb b a = true) ->
  (forall a b c, rleb a b = true -> rleb b c = true -> rleb a c = true) ->
  rleb lo hi = false ->
  clamp lo hi x = hi.
Proof.
  intros Htot Htrans Hlh. unfold clamp, smax, smin.
  destruct (rleb x lo) eqn:Hx.
  - now rewrite Hlh.
  - destruct (rleb x hi) eqn:Hxh; [|reflexivity].
    assert (Hlx : rleb lo x = true).
    { destruct (Htot lo x) as [H|H]; [exact H | congruence]. }
    rewrite (Htrans lo x hi Hlx Hxh) in Hlh. discriminate.
Qed.

(** X19.  The clamp bounds are not validated: with [min > max], in a total
    order of the scalars, the damping of LM adds the damping factor times
    [max] to every diagonal entry of [J.T @ J], whatever the entry. *)
Theorem crossed_clamp_bounds_add_max :
  forall (pg : LMGroup) (J : matrix) (i : nat),
    (forall a b, rleb a b = true \/ rleb b a = true) ->
    (forall a b c, rleb a b = true -> rleb b c = true -> rleb a c = true) ->
    rleb (lm_min pg) (lm_max pg) = false ->
    (i < ncols J)%nat ->
    exists A, lm_system pg J = OK A /\
              entry A i i = entry (gram J) i i + damping pg * lm_max pg.
Proof.
  intros pg J i Htot Htrans Hlh Hi. exists (lm_normal_matrix pg J).
  split; [apply lm_system_normal|].
  unfold lm_normal_matrix. rewrite entry_mk_matrix by assumption.
  rewrite Nat.eqb_refl. now rewrite (clamp_crossed_bounds _ _ _ Htot Htrans Hlh).
Qed.

End MoreFacts.

(** ** The scenario of the identity model *)

Section Scenario.

Context {AG : Autograd} {LA : Linalg}.

Local Open Scope Z_scope.

(** X17.  On the model that returns its one scalar parameter, set to 5, with
    the target 0, the identity kernel, the Jacobian 1 and the weight 1, one
    [GaussNewton.step] sets the parameter to 0 and returns the loss 0, by the
    pseudo-inverse as by least squares. *)
Theorem GN_step_from_five_to_zero :
  forall (inputs : value) (rc : option Z) (dr : option string),
    modjac (output_param 0%nat) (one_param 5) inputs = column [1] ->
    jacobian (fun m => msum m) (msquare (column [-5])) = column [1] ->
    (pinverse (column [1]) = OK (column [1]) ->
     GN_step (GN_output_param false rc dr) inputs
       (Some (Single (scalar_tensor 0))) (one_param 5)
     = (one_param 0, OK 0)) /\
    (lstsq (column [1]) (column [-5]) rc dr = OK (column [-5]) ->
     GN_step (GN_output_param true rc dr) inputs
       (Some (Single (scalar_tensor 0))) (one_param 5)
     = (one_param 0, OK 0)).
Proof.
  intros inputs rc dr HJ HK.
  exact (GN_step_on_output_param 5 0 inputs rc dr HJ HK).
Qed.

End Scenario.

(** * Further runs on concrete models *)

Section MoreRuns.

#[local] Existing Instance fd_autograd.
#[local] Existing Instance diag_linalg.

Local Open Scope Z_scope.

Lemma Z_leb_total (a b : Z) : (a <=? b) = true \/ (b <=? a) = true.
Proof.
  destruct (Z.leb_spec a b); [now left | right; apply Z.leb_le; lia].
Qed.

(** Witness of X1. *)
Lemma step_keeps_layout_witness :
  nth_error (identity_store 5) 0 = Some (scalar_param true 5) /\
  length (fst (GN_step identity_GN no_input (Some (Single (scalar_tensor 7)))
                 (identity_store 5))) = length (identity_store 5).
Proof.
  split; [reflexivity|].
  exact (proj1 (proj1 (step_keeps_layout identity_GN identity_LM no_input
                         (Some (Single (scalar_tensor 7))) (identity_store 5)
                         0%nat (scalar_param true 5) eq_refl))).
Defined.

(** Witness of X3: the frozen parameter before the trainable one. *)
Lemma step_leaves_frozen_parameters_witness :
  nth_error (fst (GN_step frozen_first_GN no_input (Some (Single (scalar_tensor 7)))
                    frozen_first_store)) 0 = Some (scalar_param false 3) /\
  nth_error (fst (LM_step frozen_first_LM no_input (Some (Single (scalar_tensor 7)))
                    frozen_first_store)) 0 = Some (scalar_param false 3).
Proof.
  exact (step_leaves_frozen_parameters frozen_first_GN frozen_first_LM no_input
           (Some (Single (scalar_tensor 7))) frozen_first_store 0%nat
           (scalar_param false 3) eq_refl eq_refl).
Defined.

(** Witness of X4: the Cholesky factorization fails on a damped matrix that is
    not positive definite. *)
Lemma solver_failure_precedes_update_witness :
  LM_step negative_clamp_LM no_input (Some (Single (scalar_tensor 9))) (identity_store 5)
  = (identity_store 5, inl (LinAlgError "the input is not positive-definite")).
Proof.
  exact (proj2 (solver_failure_precedes_update identity_GN negative_clamp_LM no_input
                  (Some (Single (scalar_tensor 9))) (identity_store 5)
                  (identity_store 5) (column [4])
                  (LinAlgError "the input is not positive-definite"))
           [] {| lm_params := [0%nat]; damping := 1; lm_min := -5; lm_max := -5 |} []
           eq_refl eq_refl eq_refl eq_refl).
Defined.

(** Witness of X5: a parameter of the store that is in no group. *)
Lemma step_changes_only_group_parameters_witness :
  nth_error (fst (GN_step identity_GN no_input (Some (Single (scalar_tensor 7)))
                    [scalar_param true 5; scalar_param true 6])) 1
  = Some (scalar_param true 6).
Proof.
  refine (proj1 (step_changes_only_group_parameters 1%nat identity_GN identity_LM
                   no_input (Some (Single (scalar_tensor 7)))
                   [scalar_param true 5; scalar_param true 6]) _).
  intros pg [<-|[]] [H|[]]. discriminate.
Defined.

(** Witness of X6. *)
Lemma step_returns_loss_after_update_witness :
  exists E', _residual identity_model (identity_store 7) no_input
               (Some (Single (scalar_tensor 7))) = inr E'
             /\ 0 = msum (msquare E').
Proof.
  exact (proj1 (step_returns_loss_after_update identity_GN identity_LM no_input
                  (Some (Single (scalar_tensor 7))) (identity_store 5)
                  (identity_store 7) 0) eq_refl).
Defined.

(** Witness of X7: a scalar and a vector, both trainable. *)
Lemma trainable_group_receives_slices_witness :
  exists s', gn_group pair_GN no_input (column [2; 4; 13]) (column [1; 1; 1])
               pair_group pair_store = (s', OK tt)
             /\ slices_added (gn_params pair_group) (column [2; 4; 13]) pair_store s'.
Proof.
  refine (proj1 (trainable_group_receives_slices pair_GN identity_LM no_input
                   (column [2; 4; 13]) (column [1; 1; 1]) pair_group sample_group
                   pair_store (column [2; 4; 13]) eq_refl) eq_refl _ _ eq_refl).
  - repeat constructor; simpl; intuition discriminate.
  - intros p [<-|[<-|[]]]; eexists; split; reflexivity.
Defined.

(** Witness of X8. *)
Lemma residual_is_a_column_witness :
  ncols (column [2; 4; 13]) = 1%nat /\ matrix_wf (column [2; 4; 13]).
Proof.
  exact (residual_is_a_column pair_model pair_store no_input pair_targets
           (column [2; 4; 13]) eq_refl).
Defined.

(** Witness of X9. *)
Lemma residual_of_degenerate_outputs_witness :
  exists e, GN_step no_output_GN no_input None (identity_store 5)
            = (identity_store 5, inl e).
Proof.
  exact (proj1 (residual_of_degenerate_outputs no_output_GN identity_LM no_input
                  None (identity_store 5)) eq_refl).
Defined.

(** Witness of X10. *)
Lemma no_targets_are_zero_targets_witness :
  _residual pair_model pair_store no_input None
  = _residual pair_model pair_store no_input
      (Some (zero_targets (forward pair_model pair_store no_input))).
Proof.
  apply no_targets_are_zero_targets. repeat constructor.
Defined.

(** Witness of X11. *)
Lemma normal_matrices_are_symmetric_witness :
  exists A B,
    matmul (transpose sample_jacobian) sample_jacobian = OK A /\
    lm_system sample_group sample_jacobian = OK B /\
    (nrows A = ncols sample_jacobian /\ ncols A = ncols sample_jacobian
     /\ transpose A = A) /\
    (nrows B = ncols sample_jacobian /\ ncols B = ncols sample_jacobian
     /\ transpose B = B) /\
    (forall i j, (i < ncols sample_jacobian)%nat -> (j < ncols sample_jacobian)%nat ->
                 i <> j -> entry B i j = entry A i j).
Proof. exact (normal_matrices_are_symmetric sample_group sample_jacobian). Defined.

(** Witness of X12. *)
Lemma weighted_gradient_checks_rows_witness :
  (exists b, weighted_gradient (column [2; 3]) sample_jacobian (column [5; 7]) = inr b)
  <-> nrows (column [5; 7]) = nrows sample_jacobian \/ nrows sample_jacobian = 1%nat.
Proof.
  exact (proj1 (weighted_gradient_checks_rows (column [2; 3]) sample_jacobian
                  (column [5; 7]) eq_refl eq_refl)).
Defined.

(** Witness of X13. *)
Lemma unit_weights_give_least_squares_witness :
  weighted_gradient (ones (nrows sample_jacobian)) sample_jacobian (column [5; 7])
  = matmul (transpose sample_jacobian) (column [5; 7]).
Proof.
  exact (unit_weights_give_least_squares sample_jacobian (column [5; 7]) eq_refl).
Defined.

(** Witness of X14. *)
Lemma damping_is_clamped_witness :
  exists A c,
    lm_system sample_group sample_jacobian = OK A /\
    entry A 0 0 = entry (gram sample_jacobian) 0 0 + damping sample_group * c /\
    (lm_min sample_group <=? c) = true /\ (c <=? lm_max sample_group) = true.
Proof.
  exact (damping_is_clamped sample_group sample_jacobian 0%nat Z_leb_total
           eq_refl (Nat.lt_0_succ 1)).
Defined.

(** Witness of X15. *)
Lemma constructors_register_one_group_witness :
  gn_model identity_GN = identity_model /\
  gn_param_groups identity_GN
  = [ {| gn_params := parameters identity_model; rcond := None; driver := None |} ] /\
  forall s pg, In pg (gn_param_groups identity_GN) ->
               total (trainable_numels s (gn_params pg))
               = count_parameters identity_model s.
Proof.
  exact (proj1 (constructors_register_one_group identity_model None false None None
                  3 0 1) identity_GN eq_refl).
Defined.

(** Witness of X16. *)
Lemma default_kernel_gives_squared_error_witness :
  exists E', _residual identity_model (identity_store 7) no_input
               (Some (Single (scalar_tensor 7))) = inr E'
             /\ 0 = msum (msquare E').
Proof.
  exact (proj1 (default_kernel_gives_squared_error identity_model false None None
                  3 0 1 no_input (Some (Single (scalar_tensor 7)))
                  (identity_store 5) (identity_store 7) 0)
           identity_GN eq_refl eq_refl).
Defined.

(** Witness of X17. *)
Lemma GN_step_from_five_to_zero_witness :
  GN_step (GN_output_param false None None) no_input
    (Some (Single (scalar_tensor 0))) (one_param 5)
  = (one_param 0, OK 0).
Proof.
  exact (proj1 (GN_step_from_five_to_zero no_input None None eq_refl eq_refl) eq_refl).
Defined.


Lemma Z_leb_trans (a b c : Z) :
  (a <=? b) = true -> (b <=? c) = true -> (a <=? c) = true.
Proof. rewrite !Z.leb_le. lia. Qed.

(** Witness of X18. *)
Lemma zero_clamp_bounds_give_GN_matrix_witness :
  lm_system {| lm_params := [0%nat]; damping := 3; lm_min := 0; lm_max := 0 |}
    sample_jacobian
  = matmul (transpose sample_jacobian) sample_jacobian.
Proof.
  exact (zero_clamp_bounds_give_GN_matrix
           {| lm_params := [0%nat]; damping := 3; lm_min := 0; lm_max := 0 |}
           sample_jacobian eq_refl eq_refl).
Defined.

(** Witness of X19: [min = 1] and [max = 0]. *)
Lemma crossed_clamp_bounds_add_max_witness :
  exists A,
    lm_system {| lm_params := [0%nat]; damping := 3; lm_min := 1; lm_max := 0 |}
      sample_jacobian = OK A /\
    entry A 0 0 = entry (gram sample_jacobian) 0 0 + 3 * 0.
Proof.
  exact (crossed_clamp_bounds_add_max
           {| lm_params := [0%nat]; damping := 3; lm_min := 1; lm_max := 0 |}
           sample_jacobian 0%nat Z_leb_total Z_leb_trans eq_refl (Nat.lt_0_succ 1)).
Defined.

End MoreRuns.
